(** * The ledger bot: store operations, amount handler and broadcast

    A shallow embedding of [bot.py].  Python text is [string], one
    character for one code point up to U+00FF, chat identifiers are [Z], the SQLite file is a record of two tables, and
    the handlers run in a small state-and-exception monad over a world
    made of the database file and the trace of what the handler did
    (sends, sleeps, log records, replies). *)

From Stdlib Require Import List String Ascii ZArith Bool Arith Lia.
From Stdlib Require Import Floats.PrimFloat Floats.SpecFloat Floats.FloatOps.
Import ListNotations.

Local Open Scope string_scope.
Local Open Scope list_scope.

(** ** Python text *)

Module PyStr.

Local Open Scope string_scope.

(** The line break, Python's ["\n"].  A Rocq string has no escapes, so
    the two characters backslash and n, Python's ["\\n"], are written
    with a plain backslash here. *)
Definition newline : string := String (ascii_of_nat 10) EmptyString.
Definition backslash_n : string := "\n".

Definition is_empty (s : string) : bool :=
  match s with EmptyString => true | String _ _ => false end.

(** [str.isspace] on the code points up to U+00FF: the controls 9 to
    13 and 28 to 31, the blank, U+0085 and U+00A0. *)
Definition is_space (c : ascii) : bool :=
  let n := nat_of_ascii c in
  (((9 <=? n) && (n <=? 13)) || ((28 <=? n) && (n <=? 32))
   || (n =? 133) || (n =? 160))%nat.

(** Every character is below 128. *)
Fixpoint is_ascii (s : string) : bool :=
  match s with
  | EmptyString => true
  | String c r => (nat_of_ascii c <? 128)%nat && is_ascii r
  end.

(** The decimal digits among the code points up to U+00FF, which are
    what [\d] matches there: 0 to 9. *)
Definition is_digit (c : ascii) : bool :=
  let n := nat_of_ascii c in ((48 <=? n) && (n <=? 57))%nat.

Fixpoint lstrip (s : string) : string :=
  match s with
  | String c r => if is_space c then lstrip r else s
  | EmptyString => EmptyString
  end.

Fixpoint rstrip (s : string) : string :=
  match s with
  | String c r =>
      let r' := rstrip r in
      if is_space c && is_empty r' then EmptyString else String c r'
  | EmptyString => EmptyString
  end.

(** [s.strip()] *)
Definition strip (s : string) : string := rstrip (lstrip s).

(** [s.split()]: the maximal runs of characters that are not white
    space, in order; [cur] is the run being read. *)
Fixpoint split_from (cur : string) (s : string) : list string :=
  match s with
  | EmptyString => if is_empty cur then []%list else [cur]%list
  | String c r =>
      if is_space c
      then (if is_empty cur then split_from EmptyString r
            else (cur :: split_from EmptyString r)%list)
      else split_from (cur ++ String c EmptyString) r
  end.

Definition split (s : string) : list string := split_from EmptyString s.

(** [sep.join(l)] *)
Definition join (sep : string) (l : list string) : string :=
  String.concat sep l.

(** [s.replace(old, new)] for a non-empty [old]: occurrences are taken
    from the left and do not overlap; [skip] counts the characters of
    the occurrence just replaced that are still to be passed over. *)
Fixpoint replace_from (old new : string) (skip : nat) (s : string) : string :=
  match s with
  | EmptyString => EmptyString
  | String c r =>
      match skip with
      | S k => replace_from old new k r
      | O =>
          if String.prefix old s
          then new ++ replace_from old new (String.length old - 1) r
          else String c (replace_from old new 0 r)
      end
  end.

Definition replace (old new s : string) : string := replace_from old new 0 s.

(** [range(start, stop, step)] for a positive [step]; at most
    [stop - start] values are below [stop]. *)
Fixpoint range_from (fuel i stop step : nat) : list nat :=
  match fuel with
  | O => []%list
  | S fuel' =>
      if (i <? stop)%nat
      then (i :: range_from fuel' (i + step) stop step)%list else []%list
  end.

Definition range (start stop step : nat) : list nat :=
  range_from (stop - start) start stop step.

(** [s[i:j]] for [i <= j] *)
Definition slice (s : string) (i j : nat) : string := substring i (j - i) s.

(** White space of [s] is nothing but single spaces between words. *)
Fixpoint single_spaced_from (prev_space : bool) (s : string) : bool :=
  match s with
  | EmptyString => negb prev_space
  | String c r =>
      if is_space c
      then Ascii.eqb c " " && negb prev_space && single_spaced_from true r
      else single_spaced_from false r
  end.

Definition single_spaced (s : string) : bool :=
  is_empty s || single_spaced_from true s.

(** Does the two-character token occur in [s]? *)
Fixpoint contains_backslash_n (s : string) : bool :=
  match s with
  | EmptyString => false
  | String _ r => String.prefix backslash_n s || contains_backslash_n r
  end.

(** A word: not empty and free of white space. *)
Fixpoint no_space (s : string) : bool :=
  match s with
  | EmptyString => true
  | String c r => negb (is_space c) && no_space r
  end.

Definition is_word (s : string) : bool := negb (is_empty s) && no_space s.

End PyStr.

(** ** The pattern of an amount *)

Module Re.
Import PyStr.
Local Open Scope string_scope.

(** The longest prefix of digits and what follows it: a greedy [\d+]. *)
Fixpoint span_digits (s : string) : string * string :=
  match s with
  | String c r =>
      if is_digit c
      then let (d, rest) := span_digits r in (String c d, rest)
      else (EmptyString, s)
  | EmptyString => (EmptyString, EmptyString)
  end.

Definition split_sign (s : string) : string * string :=
  match s with
  | String c r =>
      if Ascii.eqb c "+" || Ascii.eqb c "-"
      then (String c EmptyString, r) else (EmptyString, s)
  | EmptyString => (EmptyString, EmptyString)
  end.

(** [$] matches at the end and just before a final line break. *)
Definition at_end (s : string) : bool :=
  is_empty s || String.eqb s newline.

(** [re.match(r'^[+-]?\d+(\.\d+)?$', s)]: the matched text, if any,
    for a text of code points up to U+00FF.  After the greedy digits nothing is gained by giving digits back:
    the next character would be a digit, which neither [\.] nor [$]
    accepts. *)
Definition match_amount (s : string) : option string :=
  let (sign, s1) := split_sign s in
  let (whole, s2) := span_digits s1 in
  if is_empty whole then None
  else
    match s2 with
    | String "." s3 =>
        let (frac, s4) := span_digits s3 in
        if negb (is_empty frac) && at_end s4
        then Some (sign ++ whole ++ "." ++ frac)
        else None
    | _ => if at_end s2 then Some (sign ++ whole) else None
    end.

End Re.

(** ** Python floats and the store's SUM

    [float(...)], truth of a float and SQLite's [SUM] belong to the
    interpreter and the database engine, not to the bot.  The handlers
    are written against this interface; [IEEE] below instantiates it
    with binary64 numbers and the engine's rules for a column declared
    NUMERIC. *)

(** What [SUM] yields over a column that is not empty: NULL, an
    INTEGER, a REAL, or the error "integer overflow". *)
Inductive sum_outcome (F : Type) : Type :=
| SumNull
| SumInteger (z : Z)
| SumReal (x : F)
| SumOverflow.

Arguments SumNull {F}.
Arguments SumInteger {F} z.
Arguments SumReal {F} x.
Arguments SumOverflow {F}.

Class PythonFloat : Type := {
  float : Type;
  (** [float(s)] on the texts the amount pattern accepts *)
  float_of_str : string -> float;
  (** [bool(x)] *)
  float_bool : float -> bool;
  (** [SUM(amount)] over the rows, not none, into which these floats
      were inserted as amounts, in row order *)
  sql_sum : list float -> sum_outcome float
}.

Module Binary64.

Local Open Scope string_scope.
Local Open Scope Z_scope.

Fixpoint digits_value (acc : Z) (s : string) : Z :=
  match s with
  | String c r => digits_value (10 * acc + (Z.of_nat (nat_of_ascii c) - 48)) r
  | EmptyString => acc
  end.

(** The correctly rounded binary64 value of [m / 10^k], [-0.0] for a
    negative zero. *)
Definition of_decimal (neg : bool) (m : Z) (k : nat) : PrimFloat.float :=
  match m with
  | Zpos p =>
      SF2Prim (SFdiv prec emax (S754_finite neg p 0)
                     (S754_finite false (Z.to_pos (10 ^ Z.of_nat k)) 0))
  | _ => SF2Prim (S754_zero neg)
  end.

(** [float(s)] for [s] a signed decimal: sign, digits, and possibly a
    point and more digits.  Other texts give [nan]. *)
Definition of_str (s : string) : PrimFloat.float :=
  let (sign, s1) := Re.split_sign s in
  let neg := String.eqb sign "-" in
  let (whole, s2) := Re.span_digits s1 in
  if PyStr.is_empty whole then nan
  else
    match s2 with
    | EmptyString => of_decimal neg (digits_value 0 whole) 0
    | String "." s3 =>
        let (frac, s4) := Re.span_digits s3 in
        if negb (PyStr.is_empty frac) && PyStr.is_empty s4
        then
          match String.length frac with
          | O => nan
          | k => of_decimal neg (digits_value 0 (whole ++ frac)%string) k
          end
        else nan
    | _ => nan
    end.

Definition truth (x : PrimFloat.float) : bool := negb (PrimFloat.eqb x zero).

(** The INTEGER that a column declared NUMERIC keeps in place of a
    float: a float that is a whole number strictly between the least
    and the greatest 64-bit integer. *)
Definition to_integer (x : PrimFloat.float) : option Z :=
  let within (v : Z) :=
    if (- 2 ^ 63 <? v) && (v <? 2 ^ 63 - 1) then Some v else None in
  match Prim2SF x with
  | S754_zero _ => Some 0
  | S754_finite neg m e =>
      let signed (v : Z) := if neg then - v else v in
      if 0 <=? e then within (signed (Zpos m * 2 ^ e))
      else if Zpos m mod 2 ^ (- e) =? 0
           then within (signed (Zpos m / 2 ^ (- e)))
           else None
  | _ => None
  end.

(** The float nearest to an integer. *)
Definition of_integer (v : Z) : PrimFloat.float :=
  SF2Prim (binary_normalize prec emax v 0 false).

(** The state of [SUM] while it reads the column: the float sum, the
    integer sum, whether a row was read, whether a REAL was read or the
    integer sum given up, and whether the integer sum has overflowed. *)
Record sum_state : Type := mkSum {
  rSum : PrimFloat.float;
  iSum : Z;
  seen : bool;
  approx : bool;
  overflow : bool
}.

Definition sum_step (p : sum_state) (x : PrimFloat.float) : sum_state :=
  if PrimFloat.is_nan x then p
  else
    match to_integer x with
    | Some v =>
        let r := PrimFloat.add (rSum p) (of_integer v) in
        if negb (approx p || overflow p)
        then
          if (- 2 ^ 63 <=? iSum p + v) && (iSum p + v <=? 2 ^ 63 - 1)
          then mkSum r (iSum p + v) true (approx p) (overflow p)
          else mkSum r (iSum p) true true true
        else mkSum r (iSum p) true (approx p) (overflow p)
    | None => mkSum (PrimFloat.add (rSum p) x) (iSum p) true true (overflow p)
    end.

(** [SUM] as the engine computes it: a float that is not a number is
    stored as NULL and skipped; the sum of integers is an integer, or an
    error when it leaves 64 bits; with a REAL among the values it is the
    float sum, and NULL when that is not a number. *)
Definition sum (l : list PrimFloat.float) : sum_outcome PrimFloat.float :=
  let p := fold_left sum_step l (mkSum zero 0 false false false) in
  if negb (seen p) then SumNull
  else if overflow p then SumOverflow
  else if approx p
       then (if PrimFloat.is_nan (rSum p) then SumNull else SumReal (rSum p))
       else SumInteger (iSum p).

End Binary64.

#[export] Instance IEEE : PythonFloat := {
  float := PrimFloat.float;
  float_of_str := Binary64.of_str;
  float_bool := Binary64.truth;
  sql_sum := Binary64.sum
}.

(** ** The database file *)

Section Model.

Context `{PythonFloat}.

(** Modelled from the spec: the row of the table
    [transactions(id PK AUTOINCREMENT, amount NUMERIC, date, category, chat_id)],
    which [bot.py] fills and reads but never creates.  [tx_amount] is
    the float that was bound at the insert; what the column makes of it
    is the engine's and shows in [sql_sum]. *)
Record Row : Type := mkRow {
  tx_id : Z;
  tx_amount : float;
  tx_date : string;
  tx_category : string;
  tx_chat_id : Z
}.

(** Modelled from the spec: the database file, with the table
    [users(chat_id UNIQUE)] in row order, the table [transactions] in
    row order, and the counter behind AUTOINCREMENT.  [bot.py] holds no
    CREATE TABLE statement. *)
Record Store : Type := mkStore {
  users : list Z;
  transactions : list Row;
  next_id : Z
}.

(** [INSERT OR IGNORE INTO users (chat_id) VALUES (?)]: the UNIQUE
    column makes the insert of a present [chat_id] a statement without
    effect. *)
Definition insert_or_ignore_user (chat_id : Z) (d : Store) : unit * Store :=
  if existsb (Z.eqb chat_id) (users d)
  then (tt, d)
  else (tt, mkStore (users d ++ [chat_id]) (transactions d) (next_id d)).

(** [INSERT INTO transactions (amount, date, category, chat_id) VALUES (?, ?, ?, ?)] *)
Definition insert_transaction (amount : float) (date category : string)
  (chat_id : Z) (d : Store) : unit * Store :=
  (tt, mkStore (users d)
         (transactions d ++ [mkRow (next_id d) amount date category chat_id])
         (Z.succ (next_id d))).

Definition owned_by (chat_id : Z) (r : Row) : bool := Z.eqb (tx_chat_id r) chat_id.

(** [SELECT * FROM transactions WHERE chat_id = ?] *)
Definition select_transactions (chat_id : Z) (d : Store) : list Row * Store :=
  (filter (owned_by chat_id) (transactions d), d).

(** [DELETE FROM transactions WHERE chat_id = ?] *)
Definition delete_transactions (chat_id : Z) (d : Store) : unit * Store :=
  (tt, mkStore (users d)
         (filter (fun r => negb (owned_by chat_id r)) (transactions d))
         (next_id d)).

(** [SELECT chat_id FROM users] *)
Definition select_users (d : Store) : list Z * Store := (users d, d).

(** ** Python values *)

Inductive pyval : Type :=
| PyNone
| PyInt (z : Z)
| PyFloat (x : float).

Definition truth (v : pyval) : bool :=
  match v with
  | PyNone => false
  | PyInt z => negb (Z.eqb z 0)
  | PyFloat x => float_bool x
  end.

(** [a or b] *)
Definition py_or (a b : pyval) : pyval := if truth a then a else b.

(** [SUM(amount)] of a column as Python gets it: None for NULL, which
    it is when there is no row; no value when the statement fails with
    an integer overflow. *)
Definition sql_SUM (column : list float) : option pyval :=
  match column with
  | [] => Some PyNone
  | _ :: _ =>
      match sql_sum column with
      | SumNull => Some PyNone
      | SumInteger z => Some (PyInt z)
      | SumReal x => Some (PyFloat x)
      | SumOverflow => None
      end
  end.

(** [SELECT SUM(amount) FROM transactions WHERE chat_id = ?] and
    [fetchone()[0]] *)
Definition select_sum (chat_id : Z) (d : Store) : option (pyval * Store) :=
  match sql_SUM (map tx_amount (filter (owned_by chat_id) (transactions d))) with
  | Some sum => Some (sum, d)
  | None => None
  end.

(** ** Effects *)

Inductive exn : Type :=
| AttributeError
| sqlite3_Error
| TelegramError.

Inductive result (A : Type) : Type :=
| Ret (a : A)
| Raise (e : exn).

Arguments Ret {A} a.
Arguments Raise {A} e.

(** What [logger.error] is called with. *)
Inductive log_record : Type :=
| ConnectError
| CloseError
| SendError (chat_id : Z).

(** A formatted text keeps its values unprinted. *)
Inductive piece : Type :=
| Lit (s : string)
| Fmt (v : pyval).

Inductive event : Type :=
| Send (chat_id : Z) (text : string) (delivered : bool)
| Sleep (seconds : float)
| Log (r : log_record)
| Reply (text : list piece)
| Document (rows : list Row).

(** What can go wrong with one connection. *)
Record Faults : Type := mkFaults {
  connect_fails : bool;
  execute_fails : bool;
  commit_fails : bool
}.

Definition no_faults : Faults := mkFaults false false false.

(** The surroundings of a handler: the faults of the n-th connection it
    opens, whether a send returns (given all that happened before, the
    recipient and the text), and the date. *)
Record Env : Type := mkEnv {
  storage : nat -> Faults;
  transport : list event -> Z -> string -> bool;
  today : string
}.

Record World : Type := mkWorld {
  file : Store;
  opened : nat;
  trace : list event
}.

Definition M (A : Type) : Type := World -> result A * World.

Definition ret {A} (a : A) : M A := fun w => (Ret a, w).

Definition raise {A} (e : exn) : M A := fun w => (Raise e, w).

Definition bind {A B} (m : M A) (k : A -> M B) : M B :=
  fun w =>
    match m w with
    | (Ret a, w') => k a w'
    | (Raise e, w') => (Raise e, w')
    end.

Definition emit (e : event) : M unit :=
  fun w => (Ret tt, mkWorld (file w) (opened w) (trace w ++ [e])).

(** [try: body except Exception as e: handler] *)
Definition try_except {A} (body : M A) (handler : exn -> M A) : M A :=
  fun w =>
    match body w with
    | (Ret a, w') => (Ret a, w')
    | (Raise e, w') => handler e w'
    end.

End Model.

Arguments Ret {A} a.
Arguments Raise {A} e.

Declare Scope py_scope.
Delimit Scope py_scope with py.
Notation "x <- m ;; k" := (bind m (fun x => k))
  (at level 61, m at next level, right associativity) : py_scope.
Notation "m ;; k" := (bind m (fun _ => k))
  (at level 61, right associativity) : py_scope.

Local Open Scope py_scope.

(** ** The handlers of [bot.py] *)

Section Handlers.

Context `{PythonFloat}.

Definition MAX_MSG_LEN : nat := 4096.

(** [RATE_LIMIT_DELAY = 0.05] *)
Definition RATE_LIMIT_DELAY : float := float_of_str "0.05".

Definition logger_error (r : log_record) : M unit := emit (Log r).

Definition reply_text (text : list piece) : M unit := emit (Reply text).

(** The block under [with Database() as db]: it runs on the
    connection's view of the file and may raise. *)
Definition Block (A : Type) : Type := Faults -> Store -> result A * Store.

(** [db.execute(...)]: a failing statement stores nothing. *)
Definition execute {A} (statement : Store -> A * Store) : Block A :=
  fun f d =>
    if execute_fails f then (Raise sqlite3_Error, d)
    else let (a, d') := statement d in (Ret a, d').

(** [db.execute(...)] of a statement that may fail by what is stored. *)
Definition execute_checked {A} (statement : Store -> option (A * Store))
  : Block A :=
  fun f d =>
    if execute_fails f then (Raise sqlite3_Error, d)
    else
      match statement d with
      | Some (a, d') => (Ret a, d')
      | None => (Raise sqlite3_Error, d)
      end.

Definition block_map {A B} (g : A -> B) (b : Block A) : Block B :=
  fun f d =>
    match b f d with
    | (Ret a, d') => (Ret (g a), d')
    | (Raise e, d') => (Raise e, d')
    end.

(** [with Database() as db: block].

    [__enter__] logs a failure to connect and goes on to
    [return self.cursor], an attribute the new object does not have:
    AttributeError leaves the [with] statement before its block.
    [__exit__] commits and closes whether the block raised or not, logs
    a failure to do so and returns None, so what the block raised is
    raised again and what it returned is returned.  What a connection
    wrote and did not commit is not in the file. *)
Definition with_Database {A} (env : Env) (block : Block A) : M A :=
  fun w =>
    let f := storage env (opened w) in
    let w1 := mkWorld (file w) (S (opened w)) (trace w) in
    if connect_fails f
    then bind (logger_error ConnectError) (fun _ => raise AttributeError) w1
    else
      let (r, d') := block f (file w1) in
      if commit_fails f
      then (r, snd (logger_error CloseError w1))
      else (r, mkWorld d' (opened w1) (trace w1)).

Definition add_user (env : Env) (chat_id : Z) : M unit :=
  with_Database env (execute (insert_or_ignore_user chat_id)).

Definition save_transaction (env : Env) (chat_id : Z) (amount : float)
  (category : string) : M unit :=
  let date := today env in
  with_Database env (execute (insert_transaction amount date category chat_id)).

Definition get_total (env : Env) (chat_id : Z) : M pyval :=
  with_Database env
    (block_map (fun sum => py_or sum (PyInt 0))
       (execute_checked (select_sum chat_id))).

(** [handle_message]: the update carries the text and the chat. *)
Definition handle_message (env : Env) (text : string) (chat_id : Z) : M unit :=
  let text := PyStr.strip text in
  add_user env chat_id ;;
  match Re.match_amount text with
  | Some group =>
      let amount := float_of_str group in
      save_transaction env chat_id amount "general" ;;
      total <- get_total env chat_id ;;
      reply_text [Lit "Amount added: "; Fmt (PyFloat amount);
                  Lit (PyStr.newline ++ "Total: ")%string; Fmt total]
  | None =>
      reply_text [Lit "Please send a valid number starting with + or -."]
  end.

(** [" ".join(context.args).replace("\\n", "\n")] *)
Definition normalize (args : list string) : string :=
  PyStr.replace PyStr.backslash_n PyStr.newline (PyStr.join " " args).

(** [[message[i:i + MAX_MSG_LEN] for i in range(0, len(message), MAX_MSG_LEN)]] *)
Definition chunks (message : string) : list string :=
  map (fun i => PyStr.slice message i (i + MAX_MSG_LEN))
      (PyStr.range 0 (String.length message) MAX_MSG_LEN).

Fixpoint for_each {A} (l : list A) (body : A -> M unit) : M unit :=
  match l with
  | [] => ret tt
  | x :: rest => body x ;; for_each rest body
  end.

(** [await context.bot.send_message(chat_id=..., text=..., parse_mode=...)] *)
Definition send_message (env : Env) (chat_id : Z) (text : string) : M unit :=
  fun w =>
    let delivered := transport env (trace w) chat_id text in
    let w' := mkWorld (file w) (opened w) (trace w ++ [Send chat_id text delivered]) in
    if delivered then (Ret tt, w') else (Raise TelegramError, w').

Definition sleep (seconds : float) : M unit := emit (Sleep seconds).

Definition fetch_users (env : Env) : M (list Z) :=
  with_Database env (execute select_users).

(** The loop of [broadcast_message] over the rows read from [users]. *)
Definition deliver (env : Env) (message : string) (users : list Z) : M unit :=
  for_each users (fun user =>
    for_each (chunks message) (fun chunk =>
      try_except
        (send_message env user chunk ;; sleep RATE_LIMIT_DELAY)
        (fun e => logger_error (SendError user)))).

(** [broadcast_message]: [args] is [context.args]. *)
Definition broadcast_message (env : Env) (args : list string) : M unit :=
  match args with
  | [] => reply_text [Lit "Please provide a message to broadcast."]
  | _ :: _ =>
      let message := normalize args in
      users <- fetch_users env ;;
      deliver env message users ;;
      reply_text [Lit "Broadcast sent."]
  end.

Definition fetch_transactions (env : Env) (user_id : Z) : M (list Row) :=
  with_Database env (execute (select_transactions user_id)).

(** [export_transactions]: the rows written to the CSV file and sent
    as a document. *)
Definition export_transactions (env : Env) (user_id : Z) : M unit :=
  rows <- fetch_transactions env user_id ;;
  emit (Document rows).

Definition clear_transactions (env : Env) (user_id : Z) : M unit :=
  with_Database env (execute (delete_transactions user_id)).

Definition reset_transactions (env : Env) (user_id : Z) : M unit :=
  clear_transactions env user_id ;;
  reply_text [Lit "All your transactions have been reset."].

(** The operations on the store, by their names in the specification. *)
Inductive ledger_op : Type :=
| RegisterUser (chat_id : Z)
| RecordTransaction (chat_id : Z) (amount : float) (category : string)
| GetTotal (chat_id : Z)
| ListTransactions (chat_id : Z)
| ResetUser (chat_id : Z).

Inductive answer : Type :=
| Done
| Total (v : pyval)
| Rows (l : list Row).

Definition run_op (env : Env) (op : ledger_op) : M answer :=
  match op with
  | RegisterUser c => add_user env c ;; ret Done
  | RecordTransaction c a cat => save_transaction env c a cat ;; ret Done
  | GetTotal c => v <- get_total env c ;; ret (Total v)
  | ListTransactions c => l <- fetch_transactions env c ;; ret (Rows l)
  | ResetUser c => clear_transactions env c ;; ret Done
  end.

(** What an operation does to the file when its statement runs. *)
Definition effect_of (env : Env) (op : ledger_op) (d : Store) : Store :=
  match op with
  | RegisterUser c => snd (insert_or_ignore_user c d)
  | RecordTransaction c a cat => snd (insert_transaction a (today env) cat c d)
  | GetTotal _ | ListTransactions _ => d
  | ResetUser c => snd (delete_transactions c d)
  end.

(** What [get_total] makes of a column of amounts: the sum, 0 in
    place of None and of a zero, or the error of the statement. *)
Definition total_outcome (column : list float) : result pyval :=
  match sql_SUM column with
  | Some sum => Ret (py_or sum (PyInt 0))
  | None => Raise sqlite3_Error
  end.

(** What an operation hands back when its statement runs. *)
Definition outcome_of (op : ledger_op) (d : Store) : result answer :=
  match op with
  | RegisterUser _ | RecordTransaction _ _ _ | ResetUser _ => Ret Done
  | GetTotal c =>
      match total_outcome
              (map tx_amount (filter (owned_by c) (transactions d))) with
      | Ret v => Ret (Total v)
      | Raise e => Raise e
      end
  | ListTransactions c => Ret (Rows (fst (select_transactions c d)))
  end.


Fixpoint repeat_call (n : nat) (m : M unit) : M unit :=
  match n with
  | O => ret tt
  | S n' => m ;; repeat_call n' m
  end.

(** ** Reading a trace *)

Definition sends_of (t : list event) : list (Z * string) :=
  flat_map (fun e => match e with Send c x _ => [(c, x)] | _ => [] end) t.

Definition failed_sends_of (t : list event) : list (Z * string) :=
  flat_map (fun e => match e with Send c x false => [(c, x)] | _ => [] end) t.

Definition logged_of (t : list event) : list log_record :=
  flat_map (fun e => match e with Log r => [r] | _ => [] end) t.

Definition replies_of (t : list event) : list (list piece) :=
  flat_map (fun e => match e with Reply x => [x] | _ => [] end) t.

(** Every send but the first comes after a sleep that follows the send
    before it; [rested] tells whether a sleep has been seen since the
    last send. *)
Fixpoint paced_from (rested : bool) (t : list event) : bool :=
  match t with
  | [] => true
  | Send _ _ _ :: rest => rested && paced_from false rest
  | Sleep _ :: rest => paced_from true rest
  | _ :: rest => paced_from rested rest
  end.

Definition paced (t : list event) : bool := paced_from true t.

(** The pairs of a recipient and a chunk, recipients first. *)
Definition deliveries (users : list Z) (parts : list string) : list (Z * string) :=
  flat_map (fun u => map (fun c => (u, c)) parts) users.

(** [context.args] as the command handler of the transport library
    fills it: the words of the command text after the command itself. *)
Definition command_args (text : string) : list string := tl (PyStr.split text).

(** The events that a handler added to the trace. *)
Definition since (w w' : World) : list event :=
  skipn (List.length (trace w)) (trace w').

(** The events of one guarded send, after the events [t]. *)
Definition attempt_events (env : Env) (t : list event) (user : Z)
  (chunk : string) : list event :=
  if transport env t user chunk
  then [Send user chunk true; Sleep RATE_LIMIT_DELAY]
  else [Send user chunk false; Log (SendError user)].

(** The events of guarded sends made one after the other. *)
Fixpoint deliver_events (env : Env) (t : list event)
  (todo : list (Z * string)) : list event :=
  match todo with
  | [] => []
  | (user, chunk) :: rest =>
      let evs := attempt_events env t user chunk in
      evs ++ deliver_events env (t ++ evs) rest
  end.

Definition amounts_of (chat_id : Z) (d : Store) : list float :=
  map tx_amount (filter (owned_by chat_id) (transactions d)).


(** No connection of the run fails. *)
Definition reliable (env : Env) : Prop := forall n, storage env n = no_faults.


Definition broadcast_sent : list piece := [Lit "Broadcast sent."].

End Handlers.

(** ** Sample surroundings, on binary64 numbers *)

Definition calm : Env :=
  mkEnv (fun _ => no_faults) (fun _ _ _ => true) "2024-05-01".

(** The transport refuses every send to [chat_id]. *)
Definition blocked_by (chat_id : Z) : Env :=
  mkEnv (fun _ => no_faults) (fun _ c _ => negb (Z.eqb c chat_id)) "2024-05-01".

(** The first connection cannot commit. *)
Definition commit_lost : Env :=
  mkEnv (fun n => match n with O => mkFaults false false true | _ => no_faults end)
        (fun _ _ _ => true) "2024-05-01".

(** The second connection, the one of [save_transaction] in
    [handle_message], cannot commit. *)
Definition save_lost : Env :=
  mkEnv (fun n => match n with 1 => mkFaults false false true | _ => no_faults end)
        (fun _ _ _ => true) "2024-05-01".

(** No connection opens. *)
Definition unreachable : Env :=
  mkEnv (fun _ => mkFaults true false false) (fun _ _ _ => true) "2024-05-01".

Definition empty_store : Store := mkStore [] [] 1.

Definition two_users : Store := mkStore [1%Z; 2%Z] [] 1.

Definition start (d : Store) : World := mkWorld d 0 [].


Definition a_ledger : Store :=
  mkStore [1%Z; 2%Z]
    [mkRow 1 12.5%float "2024-04-30" "general" 1;
     mkRow 2 4%float "2024-04-30" "general" 2;
     mkRow 3 (-3)%float "2024-05-01" "general" 1] 4.

(** ** The other handlers and the command table *)

Section MoreHandlers.

Context `{PythonFloat}.

(** The text of [helpme]: six lines.  The backslash before the blank
    in the second line is no escape and stays. *)
Definition help_text : string :=
  PyStr.join PyStr.newline
    ["/start - Start the bot";
     "/broadcast [message] - Send a broadcast message (admin only) use** to make word bold. use \ n to make line";
     "/export - Export your transactions as CSV";
     "/graph - Get a graphical report of your transactions";
     "/reset - Reset your transactions";
     "/helpme - Show this help message"].

Definition helpme : M unit := reply_text [Lit help_text].

Fixpoint insert_sorted (d : string) (l : list string) : list string :=
  match l with
  | [] => [d]
  | x :: rest => if String.leb d x then d :: l else x :: insert_sorted d rest
  end.

Definition sort_strings (l : list string) : list string :=
  fold_right insert_sorted [] l.

(** The groups of [GROUP BY date]: the dates of the rows, each once, in
    ascending order as the sorter behind the grouping yields them. *)
Definition group_dates (rows : list Row) : list string :=
  sort_strings (nodup string_dec (map tx_date rows)).

Definition dated (day : string) (r : Row) : bool := String.eqb (tx_date r) day.

(** The row of each group, its date and the sum of its amounts; no
    rows when the sum of a group fails. *)
Fixpoint group_rows (mine : list Row) (days : list string)
  : option (list (string * pyval)) :=
  match days with
  | [] => Some []
  | day :: rest =>
      match sql_SUM (map tx_amount (filter (dated day) mine)),
            group_rows mine rest with
      | Some total, Some rows => Some ((day, total) :: rows)
      | _, _ => None
      end
  end.

(** [SELECT date, SUM(amount) FROM transactions WHERE chat_id = ? GROUP BY date] *)
Definition select_daily_totals (chat_id : Z) (d : Store)
  : option (list (string * pyval) * Store) :=
  let mine := filter (owned_by chat_id) (transactions d) in
  match group_rows mine (group_dates mine) with
  | Some rows => Some (rows, d)
  | None => None
  end.

(** What [send_graph] hands to the plotting library and sends as a
    photo, [dates, totals = zip( *transactions)], or nothing. *)
Inductive graph_outcome : Type :=
| Plotted (dates : list string) (totals : list pyval)
| NoData.

(** [send_graph]: the photo sent is kept as the value returned. *)
Definition send_graph (env : Env) (user_id : Z) : M graph_outcome :=
  rows <- with_Database env (execute_checked (select_daily_totals user_id)) ;;
  match rows with
  | _ :: _ => ret (Plotted (map fst rows) (map snd rows))
  | [] => reply_text [Lit "No transactions found."] ;; ret NoData
  end.

(** An update as the dispatcher hands it over: a text that is no
    command, or a command with its words. *)
Inductive update : Type :=
| Text (text : string) (chat_id : Z)
| Command (name : string) (args : list string) (chat_id : Z).

Definition chat_of (u : update) : Z :=
  match u with
  | Text _ c => c
  | Command _ _ c => c
  end.

(** The dictionary [commands] of [main]. *)
Definition commands (env : Env) : list (string * (Z -> list string -> M unit)) :=
  [("start", fun _ _ => helpme);
   ("broadcast", fun _ args => broadcast_message env args);
   ("export", fun chat _ => export_transactions env chat);
   ("graph", fun chat _ => send_graph env chat ;; ret tt);
   ("reset", fun chat _ => reset_transactions env chat);
   ("helpme", fun _ _ => helpme)].

Fixpoint lookup {V} (key : string) (table : list (string * V)) : option V :=
  match table with
  | [] => None
  | (k, v) :: rest => if String.eqb k key then Some v else lookup key rest
  end.

(** The handlers that [main] registers: one per command of the table,
    and [handle_message] for the texts that are no command.  An update
    that no handler takes is dropped. *)
Definition dispatch (env : Env) (u : update) : M unit :=
  match u with
  | Text text chat => handle_message env text chat
  | Command name args chat =>
      match lookup name (commands env) with
      | Some handler => handler chat args
      | None => ret tt
      end
  end.

(** ** Properties of runs *)

(** [m] only ever takes the file to a file related to it by [R]. *)
Definition keeps {A} (R : Store -> Store -> Prop) (m : M A) : Prop :=
  forall w, R (file w) (file (snd (m w))).

(** The table of users without duplicates, identifiers of transactions
    distinct and below the counter. *)
Definition store_ok (d : Store) : Prop :=
  NoDup (users d)
  /\ NoDup (map tx_id (transactions d))
  /\ Forall (fun r => (tx_id r < next_id d)%Z) (transactions d).

(** [d'] comes after [d]: no user is gone, the counter has not gone
    back, and a well-formed file stays well-formed. *)
Definition evolves (d d' : Store) : Prop :=
  (exists more, users d' = users d ++ more)
  /\ (next_id d <= next_id d')%Z
  /\ (store_ok d -> store_ok d').

(** Only [chat] is touched: the rows of every other chat are the same,
    and no one but [chat] has been registered. *)
Definition touches_only (chat : Z) (d d' : Store) : Prop :=
  (forall other, other <> chat ->
     filter (owned_by other) (transactions d')
     = filter (owned_by other) (transactions d))
  /\ (forall c, In c (users d') -> In c (users d) \/ c = chat).

Definition sleeps_of (t : list event) : list float :=
  flat_map (fun e => match e with Sleep x => [x] | _ => [] end) t.

Definition delivered_sends_of (t : list event) : list (Z * string) :=
  flat_map (fun e => match e with Send c x true => [(c, x)] | _ => [] end) t.

Definition documents_of (t : list event) : list (list Row) :=
  flat_map (fun e => match e with Document rows => [rows] | _ => [] end) t.

(** The texts that the amount pattern is meant to accept. *)
Definition all_digits (s : string) : bool :=
  negb (PyStr.is_empty s)
  && forallb PyStr.is_digit (list_ascii_of_string s).

Definition is_sign (s : string) : bool :=
  String.eqb s "" || String.eqb s "+" || String.eqb s "-".

Definition signed_decimal (g : string) : Prop :=
  exists sign whole,
    is_sign sign = true /\ all_digits whole = true
    /\ (g = (sign ++ whole)%string
        \/ exists frac,
             all_digits frac = true
             /\ g = (sign ++ whole ++ "." ++ frac)%string).

End MoreHandlers.

(** * Facts *)

(** ** Slices and ranges *)

Module PyStrFacts.
Import PyStr.
Local Open Scope string_scope.

Lemma append_empty_r (s : string) : s ++ "" = s.
Proof. induction s as [|c s IH]; simpl; [reflexivity | now rewrite IH]. Qed.

Lemma substring_of_empty (i m : nat) : substring i m "" = "".
Proof. destruct i, m; reflexivity. Qed.

Lemma substring_none (s : string) : forall i, substring i 0 s = "".
Proof.
  induction s as [|c s IH]; intros i.
  - apply substring_of_empty.
  - destruct i; simpl; [reflexivity | apply IH].
Qed.

Lemma substring_past_end (s : string) :
  forall i m, String.length s <= i -> substring i m s = "".
Proof.
  induction s as [|c s IH]; intros i m Hlen.
  - apply substring_of_empty.
  - destruct i as [|i]; simpl in *; [lia | apply IH; lia].
Qed.

Lemma substring_split (s : string) :
  forall i a b,
    substring i (a + b) s = substring i a s ++ substring (i + a) b s.
Proof.
  induction s as [|c s IH]; intros i a b.
  - now rewrite !substring_of_empty.
  - destruct i as [|i].
    + destruct a as [|a]; simpl.
      * reflexivity.
      * f_equal. apply (IH 0).
    + simpl. apply IH.
Qed.

Lemma substring_length_le (s : string) :
  forall i m, String.length (substring i m s) <= m.
Proof.
  induction s as [|c s IH]; intros i m.
  - rewrite substring_of_empty. simpl. lia.
  - destruct i as [|i].
    + destruct m as [|m]; simpl; [lia |].
      specialize (IH 0 m). lia.
    + simpl. apply IH.
Qed.

Lemma substring_whole (s : string) : substring 0 (String.length s) s = s.
Proof. induction s as [|c s IH]; simpl; [reflexivity | now rewrite IH]. Qed.

Lemma join_empty_cons (x : string) (l : list string) :
  String.concat "" (x :: l) = x ++ String.concat "" l.
Proof.
  destruct l as [|y l]; simpl.
  - now rewrite append_empty_r.
  - reflexivity.
Qed.

(** The slices of width [step] taken at the values of the range make
    up the rest of the text from the first value on. *)
Lemma slices_of_range (s : string) (step : nat) (Hstep : 0 < step) :
  forall fuel i,
    String.length s - i <= fuel ->
    String.concat ""
      (map (fun j => substring j step s)
           (range_from fuel i (String.length s) step))
    = substring i (String.length s - i) s.
Proof.
  induction fuel as [|fuel IH]; intros i Hfuel.
  - simpl. replace (String.length s - i) with 0 by lia.
    now rewrite substring_none.
  - cbn [range_from].
    destruct (Nat.ltb_spec i (String.length s)) as [Hin | Hout].
    + cbn [map]. rewrite join_empty_cons, IH by lia.
      destruct (Nat.le_gt_cases (i + step) (String.length s)) as [Hfit | Hlast].
      * replace (String.length s - i)
          with (step + (String.length s - (i + step))) by lia.
        apply eq_sym, substring_split.
      * replace (String.length s - (i + step)) with 0 by lia.
        rewrite substring_none, append_empty_r.
        replace step
          with ((String.length s - i) + (step - (String.length s - i))) at 1
          by lia.
        rewrite substring_split.
        rewrite (substring_past_end s (i + (String.length s - i))) by lia.
        apply append_empty_r.
    + simpl. replace (String.length s - i) with 0 by lia.
      now rewrite substring_none.
Qed.

Lemma slice_width (s : string) (i n : nat) : slice s i (i + n) = substring i n s.
Proof. unfold slice. f_equal. lia. Qed.

(** Replacing the token leaves none behind; and the result begins with
    the letter n only where the text did. *)
Lemma replace_leaves_no_token (n : nat) :
  forall s, String.length s <= n ->
    contains_backslash_n (replace backslash_n newline s) = false
    /\ (String.prefix "n" (replace backslash_n newline s) = true ->
        String.prefix "n" s = true).
Proof.
  unfold replace.
  induction n as [|n IH]; intros s Hlen.
  - destruct s; simpl in Hlen; [| lia].
    split; [reflexivity | intros Hn; exact Hn].
  - destruct s as [|c r]; [split; [reflexivity | intros Hn; exact Hn] |].
    simpl in Hlen.
    cbn [replace_from].
    destruct (String.prefix backslash_n (String c r)) eqn:Htok.
    + (* the token stands here: c is the backslash and r begins with n *)
      unfold backslash_n in Htok. cbn [String.prefix] in Htok.
      destruct (ascii_dec "\" c) as [<- | ]; [| discriminate].
      destruct r as [|b r']; cbn [String.prefix] in Htok; [discriminate |].
      destruct (ascii_dec "n" b) as [<- | ]; [| discriminate].
      change (String.length backslash_n - 1) with 1.
      cbn [replace_from]. simpl in Hlen.
      destruct (IH r' ltac:(lia)) as [Hno _].
      split.
      * unfold newline in *. cbn [append contains_backslash_n].
        rewrite Hno, orb_false_r. unfold backslash_n. cbn [String.prefix].
        destruct (ascii_dec "\" (ascii_of_nat 10)) as [E | ];
          [discriminate E | reflexivity].
      * unfold newline. cbn [append String.prefix].
        destruct (ascii_dec "n" (ascii_of_nat 10)) as [E | ];
          [discriminate E | discriminate].
    + destruct (IH r ltac:(lia)) as [Hno Hhead].
      split.
      * cbn [contains_backslash_n]. rewrite Hno, orb_false_r.
        unfold backslash_n in *. cbn [String.prefix] in *.
        destruct (ascii_dec "\" c) as [<- | ]; [| reflexivity].
        destruct (String.prefix "n" (replace_from "\n" newline 0 r)) eqn:Hn;
          [| reflexivity].
        rewrite (Hhead eq_refl) in Htok. discriminate.
      * cbn [String.prefix].
        destruct (ascii_dec "n" c); [intros _; now destruct r | discriminate].
Qed.

(** *** Words and single spaces *)

Lemma no_space_snoc (cur : string) (c : ascii) :
  no_space cur = true -> is_space c = false ->
  no_space (cur ++ String c "") = true.
Proof.
  intros Hcur Hc. induction cur as [|b cur IH]; simpl in *.
  - now rewrite Hc.
  - apply andb_true_iff in Hcur as [Hb Hrest].
    now rewrite Hb, IH.
Qed.

Lemma snoc_not_empty (cur : string) (c : ascii) :
  is_empty (cur ++ String c "") = false.
Proof. destruct cur; reflexivity. Qed.

Lemma split_from_words (s : string) :
  forall cur, no_space cur = true ->
    Forall (fun w => is_word w = true) (split_from cur s).
Proof.
  induction s as [|c s IH]; intros cur Hcur; simpl.
  - destruct (is_empty cur) eqn:Hempty; constructor; [| constructor].
    unfold is_word. now rewrite Hempty, Hcur.
  - destruct (is_space c) eqn:Hc.
    + destruct (is_empty cur) eqn:Hempty.
      * now apply IH.
      * constructor; [| now apply IH].
        unfold is_word. now rewrite Hempty, Hcur.
    + apply IH. now apply no_space_snoc.
Qed.

Lemma split_words (s : string) :
  Forall (fun w => is_word w = true) (split s).
Proof. now apply split_from_words. Qed.

Lemma single_spaced_skip (w rest : string) :
  no_space w = true ->
  single_spaced_from false (w ++ rest) = single_spaced_from false rest.
Proof.
  induction w as [|c w IH]; simpl; intros Hw; [reflexivity |].
  apply andb_true_iff in Hw as [Hc Hw].
  apply negb_true_iff in Hc. rewrite Hc. now apply IH.
Qed.

Lemma single_spaced_word (b : bool) (w rest : string) :
  is_word w = true ->
  single_spaced_from b (w ++ rest) = single_spaced_from false rest.
Proof.
  unfold is_word. destruct w as [|c w]; simpl; [discriminate |].
  intros Hw. apply andb_true_iff in Hw as [Hc Hw].
  apply negb_true_iff in Hc. rewrite Hc. now apply single_spaced_skip.
Qed.

Lemma joined_words_from (l : list string) :
  Forall (fun w => is_word w = true) l -> l <> [] ->
  single_spaced_from true (join " " l) = true.
Proof.
  unfold join.
  induction l as [|w l IH]; intros Hall Hne; [congruence |].
  inversion Hall as [|? ? Hw Hrest]; subst.
  destruct l as [|y l].
  - cbn [String.concat]. rewrite <- (append_empty_r w).
    now rewrite single_spaced_word.
  - change (String.concat " " (w :: y :: l))
      with (w ++ String " " (String.concat " " (y :: l))).
    rewrite single_spaced_word by assumption.
    cbn [single_spaced_from]. simpl (is_space " ").
    simpl. apply IH; [assumption | discriminate].
Qed.

(** Words joined by single spaces have no other white space. *)
Lemma joined_words (l : list string) :
  Forall (fun w => is_word w = true) l ->
  single_spaced (join " " l) = true.
Proof.
  intros Hall. unfold single_spaced.
  destruct l as [|w l]; [reflexivity |].
  rewrite joined_words_from; [apply orb_true_r | assumption | discriminate].
Qed.

End PyStrFacts.

(** ** The handlers *)

Section HandlerFacts.

Context `{PythonFloat}.

Lemma skipn_prefix {A} (t evs : list A) : skipn (List.length t) (t ++ evs) = evs.
Proof. induction t as [|e t IH]; simpl; [reflexivity | exact IH]. Qed.

Lemma since_extended (w : World) (d : Store) (n : nat) (evs : list event) :
  since w (mkWorld d n (trace w ++ evs)) = evs.
Proof. unfold since. simpl. apply skipn_prefix. Qed.

Lemma since_same (w : World) (d : Store) (n : nat) :
  since w (mkWorld d n (trace w)) = [].
Proof. unfold since. simpl. apply skipn_all. Qed.

(** *** One connection *)

Lemma with_Database_sound {A} (env : Env) (q : Store -> A * Store) (w : World) :
  storage env (opened w) = no_faults ->
  with_Database env (execute q) w
  = (Ret (fst (q (file w))),
     mkWorld (snd (q (file w))) (S (opened w)) (trace w)).
Proof.
  intros Hok. unfold with_Database, execute. rewrite Hok. simpl.
  now destruct (q (file w)).
Qed.

Lemma add_user_sound (env : Env) (c : Z) (w : World) :
  storage env (opened w) = no_faults ->
  add_user env c w
  = (Ret tt, mkWorld (snd (insert_or_ignore_user c (file w)))
                     (S (opened w)) (trace w)).
Proof.
  intros Hok. unfold add_user. rewrite with_Database_sound by assumption.
  now destruct (fst (insert_or_ignore_user c (file w))).
Qed.

Lemma save_transaction_sound (env : Env) (c : Z) (a : float) (cat : string)
  (w : World) :
  storage env (opened w) = no_faults ->
  save_transaction env c a cat w
  = (Ret tt, mkWorld (snd (insert_transaction a (today env) cat c (file w)))
                     (S (opened w)) (trace w)).
Proof.
  intros Hok. unfold save_transaction.
  now rewrite with_Database_sound by assumption.
Qed.

Lemma get_total_sound (env : Env) (c : Z) (w : World) :
  storage env (opened w) = no_faults ->
  get_total env c w
  = (total_outcome (amounts_of c (file w)),
     mkWorld (file w) (S (opened w)) (trace w)).
Proof.
  intros Hok.
  unfold get_total, with_Database, block_map, execute_checked, select_sum,
    total_outcome, amounts_of.
  rewrite Hok. cbn [connect_fails execute_fails commit_fails no_faults file].
  now destruct (sql_SUM _).
Qed.

(** *** The broadcast loop *)

Lemma attempt_run (env : Env) (user : Z) (chunk : string) (w : World) :
  try_except
    (send_message env user chunk ;; sleep RATE_LIMIT_DELAY)
    (fun e => logger_error (SendError user)) w
  = (Ret tt,
     mkWorld (file w) (opened w)
             (trace w ++ attempt_events env (trace w) user chunk)).
Proof.
  unfold try_except, bind, send_message, sleep, logger_error, emit,
    attempt_events.
  destruct (transport env (trace w) user chunk); simpl;
    now rewrite <- app_assoc.
Qed.

Lemma deliver_events_app (env : Env) (l1 l2 : list (Z * string)) :
  forall t,
    deliver_events env t (l1 ++ l2)
    = deliver_events env t l1
      ++ deliver_events env (t ++ deliver_events env t l1) l2.
Proof.
  induction l1 as [|[u c] l1 IH]; intros t; simpl.
  - now rewrite app_nil_r.
  - now rewrite IH, <- !app_assoc.
Qed.

Lemma chunk_loop_run (env : Env) (user : Z) (parts : list string) :
  forall w,
    for_each parts (fun chunk =>
      try_except
        (send_message env user chunk ;; sleep RATE_LIMIT_DELAY)
        (fun e => logger_error (SendError user))) w
    = (Ret tt,
       mkWorld (file w) (opened w)
         (trace w
          ++ deliver_events env (trace w) (map (fun c => (user, c)) parts))).
Proof.
  induction parts as [|chunk parts IH]; intros w.
  - simpl. unfold ret. rewrite app_nil_r. now destruct w.
  - cbn [for_each]. unfold bind at 1. rewrite attempt_run, IH.
    simpl. now rewrite <- app_assoc.
Qed.

Lemma deliver_run (env : Env) (message : string) (recipients : list Z) :
  forall w,
    deliver env message recipients w
    = (Ret tt,
       mkWorld (file w) (opened w)
         (trace w
          ++ deliver_events env (trace w)
               (deliveries recipients (chunks message)))).
Proof.
  unfold deliver.
  induction recipients as [|user rest IH]; intros w.
  - simpl. unfold ret. rewrite app_nil_r. now destruct w.
  - cbn [for_each]. unfold bind at 1. rewrite chunk_loop_run, IH.
    cbn [deliveries flat_map file opened trace].
    now rewrite deliver_events_app, <- app_assoc.
Qed.

Lemma broadcast_run (env : Env) (args : list string) (w : World) :
  args <> [] ->
  storage env (opened w) = no_faults ->
  broadcast_message env args w
  = (Ret tt,
     mkWorld (file w) (S (opened w))
       (trace w
        ++ deliver_events env (trace w)
             (deliveries (users (file w)) (chunks (normalize args)))
        ++ [Reply broadcast_sent])).
Proof.
  intros Hargs Hok. destruct args as [|a args]; [congruence |].
  unfold broadcast_message, fetch_users, bind.
  rewrite with_Database_sound by assumption.
  cbn [select_users fst snd]. rewrite deliver_run.
  unfold reply_text, emit. cbn [file opened trace].
  now rewrite <- app_assoc.
Qed.

(** *** What the events of the loop are *)

Lemma sends_of_app (t1 t2 : list event) :
  sends_of (t1 ++ t2) = sends_of t1 ++ sends_of t2.
Proof. apply flat_map_app. Qed.

Lemma failed_sends_of_app (t1 t2 : list event) :
  failed_sends_of (t1 ++ t2) = failed_sends_of t1 ++ failed_sends_of t2.
Proof. apply flat_map_app. Qed.

Lemma logged_of_app (t1 t2 : list event) :
  logged_of (t1 ++ t2) = logged_of t1 ++ logged_of t2.
Proof. apply flat_map_app. Qed.

Lemma replies_of_app (t1 t2 : list event) :
  replies_of (t1 ++ t2) = replies_of t1 ++ replies_of t2.
Proof. apply flat_map_app. Qed.

Lemma deliver_events_sends (env : Env) (todo : list (Z * string)) :
  forall t, sends_of (deliver_events env t todo) = todo.
Proof.
  induction todo as [|[u c] todo IH]; intros t; simpl; [reflexivity |].
  rewrite sends_of_app, IH. unfold attempt_events.
  now destruct (transport env t u c).
Qed.

Lemma deliver_events_logged (env : Env) (todo : list (Z * string)) :
  forall t,
    logged_of (deliver_events env t todo)
    = map (fun p => SendError (fst p))
          (failed_sends_of (deliver_events env t todo)).
Proof.
  induction todo as [|[u c] todo IH]; intros t; simpl; [reflexivity |].
  rewrite logged_of_app, failed_sends_of_app, map_app, IH.
  unfold attempt_events. now destruct (transport env t u c).
Qed.

Lemma deliver_events_replies (env : Env) (todo : list (Z * string)) :
  forall t, replies_of (deliver_events env t todo) = [].
Proof.
  induction todo as [|[u c] todo IH]; intros t; simpl; [reflexivity |].
  rewrite replies_of_app, IH. unfold attempt_events.
  now destruct (transport env t u c).
Qed.

(** *** Chunks *)

Lemma chunks_bounded (message : string) :
  Forall (fun chunk => String.length chunk <= MAX_MSG_LEN) (chunks message).
Proof.
  unfold chunks. apply Forall_forall. intros chunk Hin.
  apply in_map_iff in Hin as [i [<- _]].
  rewrite PyStrFacts.slice_width. apply PyStrFacts.substring_length_le.
Qed.

Lemma chunks_rejoin (message : string) :
  String.concat "" (chunks message) = message.
Proof.
  unfold chunks, PyStr.range.
  rewrite (map_ext _ (fun j => substring j MAX_MSG_LEN message))
    by (intros; apply PyStrFacts.slice_width).
  rewrite PyStrFacts.slices_of_range.
  - rewrite !Nat.sub_0_r. apply PyStrFacts.substring_whole.
  - apply Nat.ltb_lt. reflexivity.
  - lia.
Qed.

Lemma broadcast_sends (env : Env) (args : list string) (w : World) :
  args <> [] ->
  storage env (opened w) = no_faults ->
  sends_of (since w (snd (broadcast_message env args w)))
  = deliveries (users (file w)) (chunks (normalize args)).
Proof.
  intros Hargs Hok. rewrite broadcast_run by assumption.
  cbn [snd]. rewrite since_extended, sends_of_app, deliver_events_sends.
  simpl. now rewrite app_nil_r.
Qed.

Lemma broadcast_logged (env : Env) (args : list string) (w : World) :
  args <> [] ->
  storage env (opened w) = no_faults ->
  logged_of (since w (snd (broadcast_message env args w)))
  = map (fun p => SendError (fst p))
        (failed_sends_of (since w (snd (broadcast_message env args w)))).
Proof.
  intros Hargs Hok. rewrite broadcast_run by assumption.
  cbn [snd]. rewrite since_extended, logged_of_app, failed_sends_of_app.
  rewrite deliver_events_logged. simpl. now rewrite !app_nil_r.
Qed.

(** *** The tables *)

Lemma insert_or_ignore_twice (c : Z) (d : Store) :
  snd (insert_or_ignore_user c (snd (insert_or_ignore_user c d)))
  = snd (insert_or_ignore_user c d).
Proof.
  unfold insert_or_ignore_user.
  destruct (existsb (Z.eqb c) (users d)) eqn:Hin; simpl.
  - now rewrite Hin.
  - rewrite existsb_app, Hin. simpl. now rewrite Z.eqb_refl.
Qed.

Lemma registered_iff (c : Z) (l : list Z) :
  existsb (Z.eqb c) l = true <-> In c l.
Proof.
  rewrite existsb_exists. split.
  - intros [x [Hin Heq]]. apply Z.eqb_eq in Heq. now subst.
  - intros Hin. exists c. split; [assumption | apply Z.eqb_refl].
Qed.

Lemma insert_or_ignore_unique (c : Z) (d : Store) :
  NoDup (users d) ->
  NoDup (users (snd (insert_or_ignore_user c d)))
  /\ count_occ Z.eq_dec (users (snd (insert_or_ignore_user c d))) c = 1.
Proof.
  intros Hnodup. unfold insert_or_ignore_user.
  destruct (existsb (Z.eqb c) (users d)) eqn:Hin; simpl.
  - split; [assumption |].
    apply registered_iff in Hin.
    apply (count_occ_In Z.eq_dec) in Hin.
    pose proof (proj1 (NoDup_count_occ Z.eq_dec (users d)) Hnodup c). lia.
  - assert (Hout : ~ In c (users d)).
    { intros Hc. apply registered_iff in Hc. congruence. }
    split.
    + apply NoDup_rev in Hnodup.
      rewrite <- (rev_involutive (users d ++ [c])), rev_app_distr.
      apply NoDup_rev. simpl. constructor; [| assumption].
      now rewrite <- in_rev.
    + rewrite count_occ_app. simpl.
      apply (count_occ_not_In Z.eq_dec) in Hout. rewrite Hout.
      destruct (Z.eq_dec c c); [reflexivity | congruence].
Qed.

Lemma amounts_of_insert (chat c : Z) (a : float) (date cat : string) (d : Store) :
  amounts_of chat (snd (insert_transaction a date cat c d))
  = amounts_of chat d ++ (if Z.eqb c chat then [a] else []).
Proof.
  unfold amounts_of, insert_transaction. simpl.
  rewrite filter_app, map_app. simpl. unfold owned_by at 2. simpl.
  now destruct (Z.eqb c chat).
Qed.

Lemma filter_cleared_own (chat : Z) (l : list Row) :
  filter (owned_by chat) (filter (fun r => negb (owned_by chat r)) l) = [].
Proof.
  induction l as [|r l IH]; simpl; [reflexivity |].
  destruct (owned_by chat r) eqn:Hr; simpl; [assumption |].
  now rewrite Hr.
Qed.

Lemma filter_cleared_other (chat other : Z) (l : list Row) :
  other <> chat ->
  filter (owned_by other) (filter (fun r => negb (owned_by chat r)) l)
  = filter (owned_by other) l.
Proof.
  intros Hneq.
  induction l as [|r l IH]; simpl; [reflexivity |].
  destruct (owned_by chat r) eqn:Hr; simpl.
  - assert (Hother : owned_by other r = false).
    { unfold owned_by in *. apply Z.eqb_eq in Hr. apply Z.eqb_neq. congruence. }
    now rewrite Hother.
  - now rewrite IH.
Qed.


Lemma repeat_add_user_run (env : Env) (chat : Z) :
  reliable env ->
  forall n w,
    repeat_call (S n) (add_user env chat) w
    = (Ret tt,
       mkWorld (snd (insert_or_ignore_user chat (file w)))
               (S n + opened w) (trace w)).
Proof.
  intros Hrel.
  induction n as [|n IH]; intros w.
  - cbn [repeat_call]. unfold bind. now rewrite add_user_sound by apply Hrel.
  - change (repeat_call (S (S n)) (add_user env chat))
      with (add_user env chat ;; repeat_call (S n) (add_user env chat)).
    unfold bind. rewrite add_user_sound by apply Hrel. rewrite IH.
    cbn [file opened trace]. rewrite insert_or_ignore_twice.
    do 2 f_equal. lia.
Qed.

End HandlerFacts.

(** * The claims *)

Section Claims.

Context `{PythonFloat}.

Import PyStr.

(** ** Broadcast *)

(** C1.  Per-recipient isolation: in a broadcast with a message, whatever
    the transport does with each send, the handler ends normally, the
    sends attempted are every chunk for every recipient of the snapshot,
    recipients in snapshot order and chunks in order, and every send that
    failed is written to the error log with its recipient.  A failed
    send stops neither the other chunks nor the other recipients. *)
Theorem broadcast_isolates_recipients (env : Env) (args : list string)
  (w : World) :
  args <> [] ->
  storage env (opened w) = no_faults ->
  let w' := snd (broadcast_message env args w) in
  fst (broadcast_message env args w) = Ret tt
  /\ sends_of (since w w')
     = deliveries (users (file w)) (chunks (normalize args))
  /\ logged_of (since w w')
     = map (fun p => SendError (fst p)) (failed_sends_of (since w w')).
Proof.
  intros Hargs Hok w'. repeat split.
  - now rewrite broadcast_run.
  - now apply broadcast_sends.
  - now apply broadcast_logged.
Qed.

(** C3, as the code has it.  The reply to the administrator after a
    broadcast with a message is the fixed text "Broadcast sent.",
    whatever was delivered: it holds no count and no list of failures.
    The failures go to the error log only, one record for each failed
    send; with no recipient nothing is sent and the reply is the same. *)
Theorem broadcast_reply_is_fixed (env : Env) (args : list string) (w : World) :
  args <> [] ->
  storage env (opened w) = no_faults ->
  let w' := snd (broadcast_message env args w) in
  replies_of (since w w') = [broadcast_sent]
  /\ logged_of (since w w')
     = map (fun p => SendError (fst p)) (failed_sends_of (since w w'))
  /\ (users (file w) = [] -> since w w' = [Reply broadcast_sent]).
Proof.
  intros Hargs Hok w'. repeat split.
  - subst w'. rewrite broadcast_run by assumption.
    cbn [snd]. rewrite since_extended, replies_of_app, deliver_events_replies.
    reflexivity.
  - now apply broadcast_logged.
  - intros Hnone. subst w'. rewrite broadcast_run by assumption.
    cbn [snd]. rewrite since_extended, Hnone. reflexivity.
Qed.

(** C4.  Chunking round trip: the message of a broadcast, which is the
    arguments joined and with every backslash-n token replaced by a line
    break (none is left), is cut into chunks of at most MAX_MSG_LEN
    characters, and the chunks joined in order are the message again,
    whatever its length. *)
Theorem chunks_round_trip (args : list string) :
  let message := normalize args in
  Forall (fun chunk => String.length chunk <= MAX_MSG_LEN) (chunks message)
  /\ String.concat "" (chunks message) = message
  /\ contains_backslash_n message = false.
Proof.
  intros message. repeat split.
  - apply chunks_bounded.
  - apply chunks_rejoin.
  - apply (PyStrFacts.replace_leaves_no_token
             (String.length (join " " args))), le_n.
Qed.

(** Where every send is delivered, every send is followed by the
    delay. *)
Lemma paced_when_all_delivered (env : Env) (todo : list (Z * string)) :
  (forall t c x, transport env t c x = true) ->
  forall t, paced_from true (deliver_events env t todo) = true.
Proof.
  intros Hall.
  induction todo as [|[u c] todo IH]; intros t; simpl; [reflexivity |].
  unfold attempt_events. rewrite Hall. simpl. apply IH.
Qed.

(** C10.  The message that a broadcast chunks and sends is the words of
    the command text after the command, joined by single spaces, with
    the backslash-n tokens replaced: the chunks sent to the recipients
    are its chunks and make it up again.  Before the tokens are
    replaced its only white space is single spaces between words, so
    runs of spaces, tabs and line breaks of the body are not kept, and
    a body with two spaces in a row is not sent as it was written. *)
Theorem broadcast_sends_rejoined_words (env : Env) (text : string) (w : World) :
  let args := command_args text in
  args <> [] ->
  storage env (opened w) = no_faults ->
  let w' := snd (broadcast_message env args w) in
  let message := replace backslash_n newline (join " " args) in
  sends_of (since w w') = deliveries (users (file w)) (chunks message)
  /\ String.concat "" (chunks message) = message
  /\ single_spaced (join " " args) = true
  /\ normalize (command_args "/broadcast a  b") <> "a  b"%string.
Proof.
  intros args Hargs Hok w' message.
  repeat split.
  - now apply broadcast_sends.
  - apply chunks_rejoin.
  - apply PyStrFacts.joined_words.
    unfold args, command_args.
    pose proof (PyStrFacts.split_words text) as Hwords.
    destruct (split text) as [|cmd rest]; [constructor |].
    now inversion Hwords.
  - vm_compute. discriminate.
Qed.

(** ** The ledger *)

(** C2, as the code has it.  For every ledger operation whose connection
    opens: when nothing fails, the answer comes with the write already in
    the file; when the statement fails, as a total does whose sum leaves
    64 bits, the error is raised to the caller and the file is as
    before; when the commit on exit fails, the error is
    only written to the log, the caller gets the answer as if nothing had
    happened, and the write is not in the file.  Nothing is rolled back
    and a failing commit is not raised. *)
Theorem ledger_op_outcome (env : Env) (op : ledger_op) (w : World) :
  connect_fails (storage env (opened w)) = false ->
  let f := storage env (opened w) in
  let r := fst (run_op env op w) in
  let w' := snd (run_op env op w) in
  match execute_fails f, commit_fails f with
  | false, false =>
      r = outcome_of op (file w)
      /\ file w' = effect_of env op (file w) /\ since w w' = []
  | false, true =>
      r = outcome_of op (file w)
      /\ file w' = file w /\ since w w' = [Log CloseError]
  | true, false =>
      r = Raise sqlite3_Error /\ file w' = file w /\ since w w' = []
  | true, true =>
      r = Raise sqlite3_Error
      /\ file w' = file w /\ since w w' = [Log CloseError]
  end.
Proof.
  intros Hconn f r w'. subst f r w'.
  unfold run_op, add_user, save_transaction, get_total, fetch_transactions,
    clear_transactions, with_Database, block_map, execute, execute_checked,
    bind, ret, logger_error, emit, raise, outcome_of, total_outcome,
    effect_of, insert_or_ignore_user, insert_transaction, select_sum,
    select_transactions, delete_transactions.
  destruct op; cbv beta zeta; cbn [file opened trace];
    destruct (storage env (opened w)) as [cf ef mf];
    cbn [connect_fails execute_fails commit_fails] in *; subst cf;
    destruct ef, mf;
    try (destruct (existsb (Z.eqb chat_id) (users (file w))));
    try (destruct (sql_SUM _));
    cbn [fst snd file opened trace];
    rewrite ?since_extended, ?since_same;
    repeat split; reflexivity.
Qed.


(** C7.  ResetUser frame: after reset_transactions for a chat, its total
    is 0 and its list of transactions is empty; the table of users is as
    before, so the chat's own registration stays; and every other chat
    lists the same transactions and has the same total as before. *)
Theorem reset_clears_only_the_user (env : Env) (chat : Z) (w : World) :
  reliable env ->
  let w' := snd (reset_transactions env chat w) in
  fst (reset_transactions env chat w) = Ret tt
  /\ fst (get_total env chat w') = Ret (PyInt 0)
  /\ fst (fetch_transactions env chat w') = Ret []
  /\ users (file w') = users (file w)
  /\ forall other, other <> chat ->
       fst (fetch_transactions env other w')
       = fst (fetch_transactions env other w)
       /\ fst (get_total env other w') = fst (get_total env other w).
Proof.
  intros Hrel w'.
  assert (Hrun : reset_transactions env chat w
                 = (Ret tt,
                    mkWorld (snd (delete_transactions chat (file w)))
                            (S (opened w))
                            (trace w ++ [Reply [Lit "All your transactions have been reset."]]))).
  { unfold reset_transactions, clear_transactions, bind.
    now rewrite with_Database_sound by apply Hrel. }
  subst w'. rewrite Hrun. cbn [fst snd].
  unfold fetch_transactions.
  rewrite !get_total_sound, !with_Database_sound by apply Hrel.
  cbn [fst snd file select_transactions delete_transactions transactions users].
  unfold amounts_of. cbn [transactions].
  rewrite filter_cleared_own.
  repeat split.
  all: rewrite ?get_total_sound, ?with_Database_sound by apply Hrel.
  all: unfold amounts_of;
    cbn [fst snd file select_transactions transactions];
    now rewrite filter_cleared_other.
Qed.


(** C9.  RegisterUser is idempotent: add_user called n >= 1 times for a
    chat, on a table of users without duplicates, ends normally, logs no
    error, leaves exactly one row for the chat in a table still without
    duplicates, and leaves the file as the first call alone leaves it. *)
Theorem add_user_idempotent (env : Env) (chat : Z) (n : nat) (w : World) :
  reliable env ->
  1 <= n ->
  NoDup (users (file w)) ->
  let w' := snd (repeat_call n (add_user env chat) w) in
  fst (repeat_call n (add_user env chat) w) = Ret tt
  /\ count_occ Z.eq_dec (users (file w')) chat = 1
  /\ NoDup (users (file w'))
  /\ file w' = file (snd (add_user env chat w))
  /\ since w w' = [].
Proof.
  intros Hrel Hn Hnodup w'. subst w'.
  destruct n as [|n]; [lia |].
  rewrite repeat_add_user_run, add_user_sound by apply Hrel.
  cbn [fst snd file]. rewrite since_same.
  destruct (insert_or_ignore_unique chat (file w) Hnodup) as [Huniq Hone].
  repeat split; assumption.
Qed.

End Claims.

(** ** The claims at sample inputs *)

Lemma broadcast_isolates_recipients_witness :
  let w := start two_users in
  let w' := snd (broadcast_message (blocked_by 1) ["hi"] w) in
  fst (broadcast_message (blocked_by 1) ["hi"] w) = Ret tt
  /\ sends_of (since w w') = [(1%Z, "hi"); (2%Z, "hi")]
  /\ logged_of (since w w') = [SendError 1].
Proof.
  apply (broadcast_isolates_recipients (blocked_by 1) ["hi"] (start two_users));
    [discriminate | reflexivity].
Defined.

Lemma broadcast_reply_is_fixed_witness :
  let w := start two_users in
  let w' := snd (broadcast_message (blocked_by 1) ["hi"] w) in
  replies_of (since w w') = [broadcast_sent]
  /\ logged_of (since w w') = [SendError 1]
  /\ (users (file w) = [] -> since w w' = [Reply broadcast_sent]).
Proof.
  apply (broadcast_reply_is_fixed (blocked_by 1) ["hi"] (start two_users));
    [discriminate | reflexivity].
Defined.

(** C3 as stated fails: with recipient 1 refusing every send and with
    every send delivered, the administrator gets the same reply, though
    one run has a failed recipient and the other has none; the reply
    tells neither count. *)
Lemma broadcast_reply_hides_failures :
  let w := start two_users in
  let refused := since w (snd (broadcast_message (blocked_by 1) ["hi"] w)) in
  let delivered := since w (snd (broadcast_message calm ["hi"] w)) in
  replies_of refused = replies_of delivered
  /\ replies_of delivered = [[Lit "Broadcast sent."]]
  /\ failed_sends_of refused = [(1%Z, "hi")]
  /\ failed_sends_of delivered = [].
Proof. repeat split. Qed.

(** C5 fails at a failed send: the sleep stands in the guarded block
    after the send, so a send that raises goes to the handler without
    it, and the next send follows with no delay in between. *)
Lemma no_delay_after_failed_send :
  let t := since (start two_users)
             (snd (broadcast_message (blocked_by 1) ["hi"] (start two_users))) in
  t = [Send 1 "hi" false; Log (SendError 1);
       Send 2 "hi" true; Sleep RATE_LIMIT_DELAY; Reply broadcast_sent]
  /\ paced t = false.
Proof. split; reflexivity. Qed.

Lemma broadcast_sends_rejoined_words_witness :
  let text := "/broadcast hello   big\nworld" in
  let w := start two_users in
  let w' := snd (broadcast_message calm (command_args text) w) in
  let message := PyStr.replace PyStr.backslash_n PyStr.newline
                   (PyStr.join " " (command_args text)) in
  sends_of (since w w') = deliveries (users (file w)) (chunks message)
  /\ String.concat "" (chunks message) = message
  /\ PyStr.single_spaced (PyStr.join " " (command_args text)) = true
  /\ normalize (command_args "/broadcast a  b") <> "a  b".
Proof.
  apply (broadcast_sends_rejoined_words calm "/broadcast hello   big\nworld"
           (start two_users)); [discriminate | reflexivity].
Defined.

Lemma ledger_op_outcome_witness :
  let op := RecordTransaction 7 5%float "general" in
  let w := start empty_store in
  fst (run_op commit_lost op w) = Ret Done
  /\ file (snd (run_op commit_lost op w)) = file w
  /\ since w (snd (run_op commit_lost op w)) = [Log CloseError].
Proof.
  apply (ledger_op_outcome commit_lost (@RecordTransaction IEEE 7 5%float "general")
           (start empty_store)).
  reflexivity.
Defined.

(** C2 as stated fails: a commit that fails is not raised.  The
    operation returns as on success and the row is not in the file; in
    [handle_message] the sender is then told that the amount was added,
    with a total of 0. *)
Lemma commit_failure_is_not_raised :
  let op := RecordTransaction 7 5%float "general" in
  commit_fails (storage commit_lost 0) = true
  /\ fst (run_op commit_lost op (start empty_store)) = Ret Done
  /\ transactions (file (snd (run_op commit_lost op (start empty_store)))) = []
  /\ since (start empty_store)
           (snd (handle_message save_lost "5" 7 (start empty_store)))
     = [Log CloseError;
        Reply [Lit "Amount added: "; Fmt (PyFloat 5%float);
               Lit (PyStr.newline ++ "Total: ")%string; Fmt (PyInt 0)]].
Proof. repeat split. Qed.



Lemma reset_clears_only_the_user_witness :
  let w := start a_ledger in
  let w' := snd (reset_transactions calm 1 w) in
  fst (reset_transactions calm 1 w) = Ret tt
  /\ fst (get_total calm 1 w') = Ret (PyInt 0)
  /\ fst (fetch_transactions calm 1 w') = Ret []
  /\ users (file w') = [1%Z; 2%Z]
  /\ forall other, other <> 1%Z ->
       fst (fetch_transactions calm other w')
       = fst (fetch_transactions calm other w)
       /\ fst (get_total calm other w') = fst (get_total calm other w).
Proof.
  apply (reset_clears_only_the_user calm 1 (start a_ledger)).
  intros n. reflexivity.
Defined.



Lemma add_user_idempotent_witness :
  let w := start two_users in
  let w' := snd (repeat_call 3 (add_user calm 7) w) in
  fst (repeat_call 3 (add_user calm 7) w) = Ret tt
  /\ count_occ Z.eq_dec (users (file w')) 7%Z = 1
  /\ NoDup (users (file w'))
  /\ file w' = file (snd (add_user calm 7 w))
  /\ since w w' = [].
Proof.
  apply (add_user_idempotent calm 7 3 (start two_users)).
  - intros n. reflexivity.
  - lia.
  - simpl. repeat constructor; simpl; intuition discriminate.
Defined.

(** ** The scenarios of the specification *)

Example scenario_amounts :
  since (start empty_store)
        (snd ((handle_message calm "12.50" 7 ;; handle_message calm "-3" 7)
                (start empty_store)))
  = [Reply [Lit "Amount added: "; Fmt (PyFloat 12.5%float);
            Lit (PyStr.newline ++ "Total: ")%string; Fmt (PyFloat 12.5%float)];
     Reply [Lit "Amount added: "; Fmt (PyFloat (-3)%float);
            Lit (PyStr.newline ++ "Total: ")%string; Fmt (PyFloat 9.5%float)]].
Proof. reflexivity. Qed.

Example scenario_rounding :
  fst (get_total calm 7
         (snd ((handle_message calm "0.1" 7 ;; handle_message calm "0.2" 7)
                 (start empty_store))))
  = Ret (PyFloat 0x1.3333333333334p-2%float).
Proof. reflexivity. Qed.

Example scenario_long_broadcast :
  let body := PyStr.join "" (repeat "abcdefghij" 820 ++ ["ab"]) in
  let w := mkWorld (mkStore [1%Z; 2%Z; 3%Z] [] 1) 0 [] in
  let t := trace (snd (broadcast_message calm [body] w)) in
  (String.length body,
   map String.length (chunks (normalize [body])),
   map (fun p => (fst p, String.length (snd p))) (sends_of t),
   List.length (failed_sends_of t))
  = (2 * MAX_MSG_LEN + 10,
     [4096; 4096; 10],
     [(1%Z, 4096); (1%Z, 4096); (1%Z, 10); (2%Z, 4096); (2%Z, 4096);
      (2%Z, 10); (3%Z, 4096); (3%Z, 4096); (3%Z, 10)],
     0).
Proof. vm_compute. reflexivity. Qed.

(** * More of the code *)

(** ** The pattern of an amount *)

Module ReFacts.
Import PyStr Re.
Local Open Scope string_scope.

Lemma app_assoc_str (a b c : string) : (a ++ b) ++ c = a ++ (b ++ c).
Proof. induction a as [|x a IH]; simpl; [reflexivity | now rewrite IH]. Qed.

Lemma digits_app (a b : string) :
  forallb is_digit (list_ascii_of_string (a ++ b))
  = forallb is_digit (list_ascii_of_string a)
    && forallb is_digit (list_ascii_of_string b).
Proof.
  induction a as [|x a IH]; simpl; [reflexivity |].
  now rewrite IH, andb_assoc.
Qed.

(** A text begins with no digit. *)
Definition no_digit_ahead (s : string) : Prop :=
  match s with
  | EmptyString => True
  | String c _ => is_digit c = false
  end.

Lemma span_digits_spec (s : string) :
  forall d rest,
    span_digits s = (d, rest) ->
    s = d ++ rest
    /\ forallb is_digit (list_ascii_of_string d) = true
    /\ no_digit_ahead rest.
Proof.
  induction s as [|c s IH]; intros d rest Hspan; simpl in Hspan.
  - inversion Hspan; subst. repeat split.
  - destruct (is_digit c) eqn:Hc.
    + destruct (span_digits s) as [d' rest'] eqn:Hrec.
      inversion Hspan; subst.
      destruct (IH d' rest eq_refl) as (Heq & Hd & Hrest).
      repeat split; cbn [append list_ascii_of_string forallb].
      * now rewrite <- Heq.
      * now rewrite Hc, Hd.
      * exact Hrest.
    + inversion Hspan; subst. repeat split. exact Hc.
Qed.

Lemma span_digits_app (d rest : string) :
  forallb is_digit (list_ascii_of_string d) = true ->
  no_digit_ahead rest ->
  span_digits (d ++ rest) = (d, rest).
Proof.
  intros Hd Hrest.
  induction d as [|c d IH];
    cbn [append list_ascii_of_string forallb span_digits] in *.
  - destruct rest as [|c rest]; [reflexivity |].
    cbn [no_digit_ahead span_digits] in *. now rewrite Hrest.
  - apply andb_true_iff in Hd as [Hc Hd]. now rewrite Hc, IH.
Qed.

Lemma split_sign_spec (s sign rest : string) :
  split_sign s = (sign, rest) -> s = sign ++ rest /\ is_sign sign = true.
Proof.
  unfold split_sign. destruct s as [|c s].
  - intros Heq. inversion Heq. now split.
  - destruct (Ascii.eqb c "+" || Ascii.eqb c "-") eqn:Hc;
      intros Heq; inversion Heq; subst; [| now split].
    split; [reflexivity |].
    apply orb_true_iff in Hc as [Hc | Hc]; apply Ascii.eqb_eq in Hc; now subst.
Qed.

Lemma digit_is_no_sign (c : ascii) :
  is_digit c = true -> Ascii.eqb c "+" || Ascii.eqb c "-" = false.
Proof.
  destruct c as [[] [] [] [] [] [] [] []]; intros Hc;
    solve [reflexivity | discriminate Hc].
Qed.

Lemma split_sign_app (sign whole rest : string) :
  is_sign sign = true -> all_digits whole = true ->
  split_sign (sign ++ whole ++ rest) = (sign, whole ++ rest).
Proof.
  unfold is_sign, all_digits. intros Hsign Hwhole.
  apply andb_true_iff in Hwhole as [Hne Hd].
  destruct whole as [|c whole]; [discriminate |].
  simpl in Hd. apply andb_true_iff in Hd as [Hc _].
  apply orb_true_iff in Hsign as [Hsign | Hsign];
    [apply orb_true_iff in Hsign as [Hsign | Hsign] |];
    apply String.eqb_eq in Hsign; subst; simpl; [| reflexivity | reflexivity].
  now rewrite (digit_is_no_sign c Hc).
Qed.

(** The two ways on after the digits: a point, or anything else. *)
Lemma match_amount_cases (s sign s1 whole s2 : string) :
  split_sign s = (sign, s1) ->
  span_digits s1 = (whole, s2) ->
  (exists s3,
     s2 = String "." s3
     /\ match_amount s
        = if is_empty whole then None
          else let (frac, s4) := span_digits s3 in
               if negb (is_empty frac) && at_end s4
               then Some (sign ++ whole ++ "." ++ frac) else None)
  \/ ((forall s3, s2 <> String "." s3)
      /\ match_amount s
         = if is_empty whole then None
           else if at_end s2 then Some (sign ++ whole) else None).
Proof.
  intros Hsign Hspan. unfold match_amount. rewrite Hsign, Hspan.
  destruct s2 as [|c s3].
  - right. split; [discriminate | reflexivity].
  - destruct (ascii_dec c ".") as [-> | Hc].
    + left. exists s3. split; reflexivity.
    + right. split; [congruence |].
      destruct (is_empty whole); [reflexivity |].
      destruct c as [[] [] [] [] [] [] [] []];
        solve [reflexivity | exfalso; apply Hc; reflexivity].
Qed.

Lemma at_end_cases (s : string) : at_end s = true -> s = "" \/ s = newline.
Proof.
  unfold at_end. intros H. apply orb_true_iff in H as [H | H].
  - left. now destruct s.
  - right. now apply String.eqb_eq.
Qed.

Lemma rstrip_ends_with_no_space (s : string) :
  forall pre c, rstrip s = pre ++ String c "" -> is_space c = false.
Proof.
  induction s as [|a s IH]; intros pre c Heq; simpl in Heq.
  - destruct pre; discriminate.
  - destruct (is_space a && is_empty (rstrip s)) eqn:Hdrop.
    + destruct pre; discriminate.
    + destruct pre as [|b pre]; simpl in Heq; inversion Heq; subst.
      * rewrite H1 in Hdrop. simpl in Hdrop.
        now rewrite andb_true_r in Hdrop.
      * eapply IH. eassumption.
Qed.

End ReFacts.

(** ** What a run keeps *)

Section Keeping.

Context `{PythonFloat}.

Variable R : Store -> Store -> Prop.
Hypothesis R_refl : forall d, R d d.
Hypothesis R_trans : forall a b c, R a b -> R b c -> R a c.

Lemma keeps_ret {A} (a : A) : keeps R (ret a).
Proof. intros w. apply R_refl. Qed.

Lemma keeps_emit (e : event) : keeps R (emit e).
Proof. intros w. apply R_refl. Qed.

Lemma keeps_bind {A B} (m : M A) (k : A -> M B) :
  keeps R m -> (forall a, keeps R (k a)) -> keeps R (bind m k).
Proof.
  intros Hm Hk w. unfold bind. specialize (Hm w).
  destruct (m w) as [[a | e] w1]; cbn [snd] in *.
  - eapply R_trans; [exact Hm | apply Hk].
  - exact Hm.
Qed.

Lemma keeps_try_except {A} (body : M A) (handler : exn -> M A) :
  keeps R body -> (forall e, keeps R (handler e)) ->
  keeps R (try_except body handler).
Proof.
  intros Hb Hh w. unfold try_except. specialize (Hb w).
  destruct (body w) as [[a | e] w1]; cbn [snd] in *.
  - exact Hb.
  - eapply R_trans; [exact Hb | apply Hh].
Qed.

Lemma keeps_for_each {A} (l : list A) (body : A -> M unit) :
  (forall x, keeps R (body x)) -> keeps R (for_each l body).
Proof.
  intros Hbody. induction l as [|x l IH]; cbn [for_each].
  - apply keeps_ret.
  - apply keeps_bind; [apply Hbody | intros _; exact IH].
Qed.

Lemma keeps_with_Database {A} (env : Env) (block : Block A) :
  (forall f d, R d (snd (block f d))) -> keeps R (with_Database env block).
Proof.
  intros Hblock w. unfold with_Database.
  destruct (connect_fails (storage env (opened w))).
  - apply R_refl.
  - specialize (Hblock (storage env (opened w)) (file w)).
    cbn [file]. destruct (block (storage env (opened w)) (file w)) as [r d'].
    destruct (commit_fails (storage env (opened w))); cbn [snd file] in *.
    + apply R_refl.
    + exact Hblock.
Qed.

Lemma execute_keeps {A} (q : Store -> A * Store) :
  (forall d, R d (snd (q d))) -> forall f d, R d (snd (execute q f d)).
Proof.
  intros Hq f d. unfold execute. destruct (execute_fails f).
  - apply R_refl.
  - specialize (Hq d). now destruct (q d).
Qed.

Lemma execute_checked_keeps {A} (q : Store -> option (A * Store)) :
  (forall d a d', q d = Some (a, d') -> R d d') ->
  forall f d, R d (snd (execute_checked q f d)).
Proof.
  intros Hq f d. unfold execute_checked. destruct (execute_fails f).
  - apply R_refl.
  - destruct (q d) as [[a d'] |] eqn:Hd; cbn [snd].
    + now apply (Hq d a).
    + apply R_refl.
Qed.

Lemma block_map_keeps {A B} (g : A -> B) (b : Block A) :
  (forall f d, R d (snd (b f d))) -> forall f d, R d (snd (block_map g b f d)).
Proof.
  intros Hb f d. unfold block_map. specialize (Hb f d).
  now destruct (b f d) as [[a | e] d'].
Qed.

Lemma keeps_send_message (env : Env) (c : Z) (x : string) :
  keeps R (send_message env c x).
Proof.
  intros w. unfold send_message.
  destruct (transport env (trace w) c x); apply R_refl.
Qed.

Lemma keeps_statement {A} (env : Env) (q : Store -> A * Store) :
  (forall d, R d (snd (q d))) -> keeps R (with_Database env (execute q)).
Proof. intros Hq. now apply keeps_with_Database, execute_keeps. Qed.

Lemma keeps_get_total (env : Env) (c : Z) : keeps R (get_total env c).
Proof.
  apply keeps_with_Database, block_map_keeps, execute_checked_keeps.
  intros d a d' Hq. unfold select_sum in Hq.
  destruct (sql_SUM _); inversion Hq; subst. apply R_refl.
Qed.

Lemma keeps_deliver (env : Env) (message : string) (recipients : list Z) :
  keeps R (deliver env message recipients).
Proof.
  unfold deliver. apply keeps_for_each. intros user.
  apply keeps_for_each. intros chunk.
  apply keeps_try_except.
  - apply keeps_bind; [apply keeps_send_message | intros _; apply keeps_emit].
  - intros e. apply keeps_emit.
Qed.

Lemma keeps_broadcast_message (env : Env) (args : list string) :
  keeps R (broadcast_message env args).
Proof.
  unfold broadcast_message. destruct args as [|a args].
  - apply keeps_emit.
  - apply keeps_bind.
    + apply keeps_statement. intros d. apply R_refl.
    + intros recipients. apply keeps_bind; [apply keeps_deliver |].
      intros _. apply keeps_emit.
Qed.

Lemma keeps_export_transactions (env : Env) (c : Z) :
  keeps R (export_transactions env c).
Proof.
  unfold export_transactions. apply keeps_bind.
  - apply keeps_statement. intros d. apply R_refl.
  - intros rows. apply keeps_emit.
Qed.

Lemma keeps_send_graph (env : Env) (c : Z) : keeps R (send_graph env c).
Proof.
  unfold send_graph. apply keeps_bind.
  - apply keeps_with_Database, execute_checked_keeps.
    intros d a d' Hq. unfold select_daily_totals in Hq.
    destruct (group_rows _ _); inversion Hq; subst. apply R_refl.
  - intros [|row rows].
    + apply keeps_bind; [apply keeps_emit | intros _; apply keeps_ret].
    + apply keeps_ret.
Qed.

Lemma keeps_handle_message (env : Env) (text : string) (c : Z) :
  (forall d, R d (snd (insert_or_ignore_user c d))) ->
  (forall a date cat d, R d (snd (insert_transaction a date cat c d))) ->
  keeps R (handle_message env text c).
Proof.
  intros Huser Hrow. unfold handle_message.
  apply keeps_bind; [now apply keeps_statement |].
  intros _. destruct (Re.match_amount (PyStr.strip text)) as [group |].
  - apply keeps_bind; [apply keeps_statement, Hrow |].
    intros _. apply keeps_bind; [apply keeps_get_total |].
    intros total. apply keeps_emit.
  - apply keeps_emit.
Qed.

Lemma keeps_reset_transactions (env : Env) (c : Z) :
  (forall d, R d (snd (delete_transactions c d))) ->
  keeps R (reset_transactions env c).
Proof.
  intros Hdel. unfold reset_transactions, clear_transactions.
  apply keeps_bind; [now apply keeps_statement | intros _; apply keeps_emit].
Qed.

Lemma keeps_dispatch (env : Env) (u : update) :
  (forall d, R d (snd (insert_or_ignore_user (chat_of u) d))) ->
  (forall a date cat d, R d (snd (insert_transaction a date cat (chat_of u) d))) ->
  (forall d, R d (snd (delete_transactions (chat_of u) d))) ->
  keeps R (dispatch env u).
Proof.
  intros Huser Hrow Hdel. destruct u as [text c | name args c]; cbn [dispatch chat_of] in *.
  - now apply keeps_handle_message.
  - unfold commands. cbn [lookup].
    repeat match goal with
           | |- context [String.eqb ?k name] => destruct (String.eqb k name)
           end;
      first [ apply keeps_emit
            | apply keeps_broadcast_message
            | apply keeps_export_transactions
            | now apply keeps_reset_transactions
            | apply keeps_ret
            | apply keeps_bind; [apply keeps_send_graph | intros _; apply keeps_ret] ].
Qed.

End Keeping.

(** ** The store under every update *)

Section StoreFacts.

Context `{PythonFloat}.

Lemma touches_only_refl (chat : Z) (d : Store) : touches_only chat d d.
Proof. split; [reflexivity | intros c Hc; now left]. Qed.

Lemma touches_only_trans (chat : Z) (a b c : Store) :
  touches_only chat a b -> touches_only chat b c -> touches_only chat a c.
Proof.
  intros [Hrows1 Husers1] [Hrows2 Husers2]. split.
  - intros other Hneq. now rewrite Hrows2, Hrows1.
  - intros x Hx. destruct (Husers2 x Hx) as [Hb | ->]; [| now right].
    now apply Husers1.
Qed.

Lemma register_touches_only (chat : Z) (d : Store) :
  touches_only chat d (snd (insert_or_ignore_user chat d)).
Proof.
  unfold insert_or_ignore_user.
  destruct (existsb (Z.eqb chat) (users d)); cbn [snd].
  - apply touches_only_refl.
  - split; cbn [transactions users]; [reflexivity |].
    intros c Hc. apply in_app_iff in Hc as [Hc | [<- | []]]; [now left | now right].
Qed.

Lemma record_touches_only (chat : Z) (a : float) (date cat : string) (d : Store) :
  touches_only chat d (snd (insert_transaction a date cat chat d)).
Proof.
  split; cbn [snd insert_transaction transactions users]; [| intros c Hc; now left].
  intros other Hneq. rewrite filter_app. cbn [filter].
  unfold owned_by at 2. cbn [tx_chat_id].
  destruct (Z.eqb_spec chat other) as [-> | _]; [congruence | apply app_nil_r].
Qed.

Lemma clear_touches_only (chat : Z) (d : Store) :
  touches_only chat d (snd (delete_transactions chat d)).
Proof.
  split; cbn [snd delete_transactions transactions users]; [| intros c Hc; now left].
  intros other Hneq. now apply filter_cleared_other.
Qed.

Lemma evolves_refl (d : Store) : evolves d d.
Proof.
  split; [exists []; now rewrite app_nil_r | split; [lia | tauto]].
Qed.

Lemma evolves_trans (a b c : Store) : evolves a b -> evolves b c -> evolves a c.
Proof.
  intros ([m1 Hu1] & Hn1 & Hok1) ([m2 Hu2] & Hn2 & Hok2).
  split; [| split; [lia | tauto]].
  exists (m1 ++ m2). now rewrite Hu2, Hu1, app_assoc.
Qed.

Lemma register_evolves (chat : Z) (d : Store) :
  evolves d (snd (insert_or_ignore_user chat d)).
Proof.
  split; [| split].
  - unfold insert_or_ignore_user.
    destruct (existsb (Z.eqb chat) (users d)); cbn [snd users].
    + exists []. now rewrite app_nil_r.
    + now exists [chat].
  - unfold insert_or_ignore_user.
    destruct (existsb (Z.eqb chat) (users d)); cbn [snd next_id]; lia.
  - intros (Husers & Hids & Hbelow).
    destruct (insert_or_ignore_unique chat d Husers) as [Hnodup _].
    unfold store_ok. split; [exact Hnodup |].
    unfold insert_or_ignore_user in *.
    destruct (existsb (Z.eqb chat) (users d)); cbn [snd transactions next_id];
      now split.
Qed.

Lemma record_evolves (chat : Z) (a : float) (date cat : string) (d : Store) :
  evolves d (snd (insert_transaction a date cat chat d)).
Proof.
  unfold insert_transaction. cbn [snd]. split; [| split].
  - exists []. cbn [users]. now rewrite app_nil_r.
  - cbn [next_id]. lia.
  - intros (Husers & Hids & Hbelow). unfold store_ok.
    cbn [users transactions next_id]. split; [exact Husers | split].
    + rewrite map_app. cbn [map tx_id].
      apply NoDup_rev in Hids. rewrite <- (rev_involutive (_ ++ _)).
      apply NoDup_rev. rewrite rev_app_distr. cbn [rev app].
      constructor; [| exact Hids].
      rewrite <- in_rev. intros Hin.
      apply in_map_iff in Hin as [r [Hid Hr]].
      rewrite Forall_forall in Hbelow. specialize (Hbelow r Hr). lia.
    + apply Forall_app. split.
      * eapply Forall_impl; [| exact Hbelow]. intros r Hr. cbn beta in *. lia.
      * constructor; [cbn [tx_id]; lia | constructor].
Qed.

(** Rows that stay after a delete keep distinct identifiers. *)
Lemma remaining_ids_distinct (stays : Row -> bool) (rows : list Row) :
  NoDup (map tx_id rows) -> NoDup (map tx_id (filter stays rows)).
Proof.
  intros Hdistinct.
  induction rows as [|row rows IH]; [constructor |].
  cbn [map] in Hdistinct. apply NoDup_cons_iff in Hdistinct as [Hfresh Hrows].
  cbn [filter]. destruct (stays row); [| now apply IH].
  cbn [map]. apply NoDup_cons; [| now apply IH].
  intros Hkept. apply Hfresh.
  apply in_map_iff in Hkept as [other [Hid Hother]].
  apply filter_In in Hother as [Hother _].
  apply in_map_iff. now exists other.
Qed.

Lemma clear_evolves (chat : Z) (d : Store) :
  evolves d (snd (delete_transactions chat d)).
Proof.
  unfold delete_transactions. cbn [snd]. split; [| split].
  - exists []. cbn [users]. now rewrite app_nil_r.
  - cbn [next_id]. lia.
  - intros (Husers & Hids & Hbelow). unfold store_ok.
    cbn [users transactions next_id]. split; [exact Husers | split].
    + now apply remaining_ids_distinct.
    + apply Forall_forall. intros r Hr. apply filter_In in Hr as [Hr _].
      rewrite Forall_forall in Hbelow. now apply Hbelow.
Qed.

(** X7.  Whatever fails and whatever the transport does, a
    broadcast, an export, a graph, the help text and a total leave the
    file as it was. *)
Theorem readers_never_write (env : Env) (w : World) :
  (forall args, file (snd (broadcast_message env args w)) = file w)
  /\ (forall c, file (snd (export_transactions env c w)) = file w)
  /\ (forall c, file (snd (send_graph env c w)) = file w)
  /\ file (snd (helpme w)) = file w
  /\ (forall c, file (snd (get_total env c w)) = file w).
Proof.
  repeat split; intros.
  - apply (keeps_broadcast_message (fun d d' => d' = d)); intros; congruence.
  - apply (keeps_export_transactions (fun d d' => d' = d)); intros; congruence.
  - apply (keeps_send_graph (fun d d' => d' = d)); intros; congruence.
  - apply (keeps_get_total (fun d d' => d' = d)); intros; congruence.
Qed.

(** X8.  Whatever fails, an update from a chat changes the
    transactions of no other chat and registers no one but its sender. *)
Theorem update_touches_only_its_chat (env : Env) (u : update) (w : World) :
  touches_only (chat_of u) (file w) (file (snd (dispatch env u w))).
Proof.
  apply (keeps_dispatch (touches_only (chat_of u)));
    intros;
    eauto using touches_only_refl, touches_only_trans, register_touches_only,
      record_touches_only, clear_touches_only.
Qed.

(** X9.  Whatever fails, an update removes no user, does not
    take the counter of identifiers back, and keeps a file well formed:
    users without duplicates, identifiers of transactions distinct and
    below the counter. *)
Theorem update_keeps_store_well_formed (env : Env) (u : update) (w : World) :
  evolves (file w) (file (snd (dispatch env u w))).
Proof.
  apply (keeps_dispatch evolves);
    intros;
    eauto using evolves_refl, evolves_trans, register_evolves,
      record_evolves, clear_evolves.
Qed.

End StoreFacts.

(** ** Texts: amounts, words and chunks *)

Module TextFacts.
Import PyStr Re.
Local Open Scope string_scope.

Lemma match_amount_shape (s g : string) :
  match_amount s = Some g ->
  signed_decimal g /\ (s = g \/ s = g ++ newline).
Proof.
  intros Hm.
  destruct (split_sign s) as [sign s1] eqn:Hsign.
  destruct (span_digits s1) as [whole s2] eqn:Hwhole.
  destruct (ReFacts.split_sign_spec _ _ _ Hsign) as [Hs Hsg].
  destruct (ReFacts.span_digits_spec _ _ _ Hwhole) as (Hs1 & Hd & _).
  destruct (ReFacts.match_amount_cases _ _ _ _ _ Hsign Hwhole)
    as [(s3 & Hs2 & Heq) | (_ & Heq)];
    rewrite Heq in Hm; clear Heq;
    destruct (is_empty whole) eqn:Hne; try discriminate.
  - destruct (span_digits s3) as [frac s4] eqn:Hfrac.
    destruct (ReFacts.span_digits_spec _ _ _ Hfrac) as (Hs3 & Hdf & _).
    destruct (negb (is_empty frac) && at_end s4) eqn:Hok; [| discriminate].
    apply andb_true_iff in Hok as [Hnf Hend].
    inversion Hm; subst g; clear Hm.
    assert (Hall : s = (sign ++ whole ++ "." ++ frac) ++ s4).
    { rewrite Hs, Hs1, Hs2, Hs3.
      rewrite !ReFacts.app_assoc_str. reflexivity. }
    split.
    + exists sign, whole. unfold all_digits. rewrite Hne, Hd.
      repeat split; [assumption |].
      right. exists frac. now rewrite Hnf, Hdf.
    + destruct (ReFacts.at_end_cases _ Hend) as [-> | ->].
      * left. now rewrite PyStrFacts.append_empty_r in Hall.
      * now right.
  - destruct (at_end s2) eqn:Hend; [| discriminate].
    inversion Hm; subst g; clear Hm.
    assert (Hall : s = (sign ++ whole) ++ s2).
    { rewrite Hs, Hs1. now rewrite ReFacts.app_assoc_str. }
    split.
    + exists sign, whole. unfold all_digits. rewrite Hne, Hd.
      repeat split; [assumption | now left].
    + destruct (ReFacts.at_end_cases _ Hend) as [-> | ->].
      * left. now rewrite PyStrFacts.append_empty_r in Hall.
      * now right.
Qed.

(** X1.  What the amount pattern matches in a text of characters below
    128 is a signed decimal: an optional sign, digits 0 to 9, and
    possibly a point and more digits; and it is the whole text, but for
    one line break at the end. *)
Theorem match_amount_sound (s g : string) :
  is_ascii s = true ->
  match_amount s = Some g ->
  signed_decimal g /\ (s = g \/ s = g ++ newline).
Proof. intros _. apply match_amount_shape. Qed.

(** X2.  Every signed decimal is matched, as a whole. *)
Theorem match_amount_complete (sign whole : string) :
  is_sign sign = true ->
  all_digits whole = true ->
  match_amount (sign ++ whole) = Some (sign ++ whole)
  /\ forall frac,
       all_digits frac = true ->
       match_amount (sign ++ whole ++ "." ++ frac)
       = Some (sign ++ whole ++ "." ++ frac).
Proof.
  intros Hsign Hwhole.
  pose proof Hwhole as Hw. unfold all_digits in Hw.
  apply andb_true_iff in Hw as [Hne Hd]. apply negb_true_iff in Hne.
  split.
  - pose proof (ReFacts.split_sign_app sign whole "" Hsign Hwhole) as Hs.
    pose proof (ReFacts.span_digits_app whole "" Hd I) as Hsp.
    rewrite !PyStrFacts.append_empty_r in *.
    destruct (ReFacts.match_amount_cases _ _ _ _ _ Hs Hsp)
      as [(s3 & Hs2 & _) | (_ & Heq)]; [discriminate |].
    rewrite Heq, Hne. reflexivity.
  - intros frac Hfrac.
    pose proof Hfrac as Hf. unfold all_digits in Hf.
    apply andb_true_iff in Hf as [Hnf Hdf].
    pose proof (ReFacts.split_sign_app sign whole ("." ++ frac) Hsign Hwhole) as Hs.
    assert (Hsp : span_digits (whole ++ "." ++ frac) = (whole, String "." frac)).
    { apply ReFacts.span_digits_app; [assumption | reflexivity]. }
    destruct (ReFacts.match_amount_cases _ _ _ _ _ Hs Hsp)
      as [(s3 & Hs2 & Heq) | (Hno & _)].
    + inversion Hs2; subst s3. rewrite Heq, Hne.
      pose proof (ReFacts.span_digits_app frac "" Hdf I) as Hspf.
      rewrite PyStrFacts.append_empty_r in Hspf.
      rewrite Hspf, Hnf. reflexivity.
    + exfalso. now apply (Hno frac).
Qed.

Lemma replace_without_token (s : string) :
  contains_backslash_n s = false -> replace backslash_n newline s = s.
Proof.
  unfold replace. induction s as [|c s IH]; [reflexivity |].
  cbn [contains_backslash_n replace_from]. intros Hno.
  apply orb_false_iff in Hno as [Hhere Hrest].
  rewrite Hhere. f_equal. now apply IH.
Qed.

(** X13.  A broadcast whose words hold no backslash-n token is sent
    as its words joined by single spaces, nothing replaced. *)
Theorem normalize_without_token (args : list string) :
  contains_backslash_n (join " " args) = false ->
  normalize args = join " " args.
Proof. apply replace_without_token. Qed.

Lemma split_from_word (w : string) :
  forall cur s,
    no_space w = true -> split_from cur (w ++ s) = split_from (cur ++ w) s.
Proof.
  induction w as [|c w IH]; intros cur s Hw.
  - now rewrite PyStrFacts.append_empty_r.
  - cbn [no_space] in Hw. apply andb_true_iff in Hw as [Hc Hw].
    apply negb_true_iff in Hc.
    cbn [append split_from]. rewrite Hc, IH by assumption.
    f_equal. now rewrite ReFacts.app_assoc_str.
Qed.

(** Words.  Splitting undoes joining: words joined by single spaces
    split into the same words. *)
Theorem split_join_round_trip (ws : list string) :
  Forall (fun w => is_word w = true) ws ->
  split (join " " ws) = ws.
Proof.
  unfold split, join.
  induction ws as [|w ws IH]; intros Hall; [reflexivity |].
  inversion Hall as [|? ? Hw Hrest]; subst.
  unfold is_word in Hw. apply andb_true_iff in Hw as [Hne Hns].
  apply negb_true_iff in Hne.
  destruct ws as [|y ws].
  - cbn [String.concat]. rewrite <- (PyStrFacts.append_empty_r w) at 1.
    rewrite split_from_word by assumption.
    cbn [append split_from]. now rewrite Hne.
  - change (String.concat " " (w :: y :: ws))
      with (w ++ String " " (String.concat " " (y :: ws))).
    rewrite split_from_word by assumption.
    cbn [append split_from]. change (is_space " ") with true. cbn iota.
    rewrite Hne. f_equal. now apply IH.
Qed.

Lemma substring_length (s : string) :
  forall i m, String.length (substring i m s) = Nat.min m (String.length s - i).
Proof.
  induction s as [|c s IH]; intros i m.
  - rewrite PyStrFacts.substring_of_empty. simpl. lia.
  - destruct i as [|i].
    + destruct m as [|m]; [reflexivity |].
      cbn [substring String.length]. rewrite IH. simpl. lia.
    + cbn [substring String.length]. rewrite IH. simpl. lia.
Qed.

Lemma range_from_below (step stop : nat) :
  forall fuel i j, In j (range_from fuel i stop step) -> j < stop.
Proof.
  induction fuel as [|fuel IH]; intros i j Hin; cbn [range_from] in Hin.
  - destruct Hin.
  - destruct (Nat.ltb_spec i stop) as [Hlt | _]; [| destruct Hin].
    destruct Hin as [<- | Hin]; [assumption | now apply (IH (i + step))].
Qed.

(** The range has as many values as steps are needed to reach the
    stop. *)
Lemma range_from_length (step stop : nat) (Hstep : 0 < step) :
  forall fuel i,
    stop - i <= fuel ->
    let k := List.length (range_from fuel i stop step) in
    stop - i <= k * step /\ k * step < (stop - i) + step.
Proof.
  induction fuel as [|fuel IH]; intros i Hfuel; cbn [range_from].
  - simpl. lia.
  - destruct (Nat.ltb_spec i stop) as [Hlt | Hge].
    + cbn [List.length]. specialize (IH (i + step) ltac:(lia)).
      cbn zeta in IH. destruct IH as [Hlow Hhigh]. cbn zeta.
      set (k := List.length _) in *.
      assert (Hk : k = 0 \/ step <= k * step)
        by (destruct k; [now left | right; simpl; lia]).
      change (S k * step) with (step + k * step).
      destruct Hk as [-> | Hk]; simpl in *; lia.
    + simpl. lia.
Qed.

(** X12.  A message of n characters is cut into the least number of
    chunks that can hold it, (n + MAX_MSG_LEN - 1) / MAX_MSG_LEN, and no
    chunk is empty; an empty message gives no chunk at all. *)
Theorem chunks_count (message : string) :
  List.length (chunks message)
  = (String.length message + MAX_MSG_LEN - 1) / MAX_MSG_LEN
  /\ Forall (fun chunk => 1 <= String.length chunk) (chunks message)
  /\ (message = "" -> chunks message = []).
Proof.
  assert (Hpos : 0 < MAX_MSG_LEN) by (apply Nat.ltb_lt; reflexivity).
  repeat split.
  - unfold chunks, range. rewrite length_map.
    pose proof (range_from_length MAX_MSG_LEN (String.length message) Hpos
                  (String.length message - 0) 0 (le_n _)) as Hk.
    cbn zeta in Hk. rewrite Nat.sub_0_r in *.
    set (k := List.length _) in *. destruct Hk as [Hlow Hhigh].
    apply (Nat.div_unique _ _ k
             (String.length message + MAX_MSG_LEN - 1 - MAX_MSG_LEN * k)); nia.
  - unfold chunks. apply Forall_forall. intros chunk Hin.
    apply in_map_iff in Hin as [j [<- Hj]].
    apply range_from_below in Hj.
    rewrite PyStrFacts.slice_width, substring_length. lia.
  - intros ->. reflexivity.
Qed.

End TextFacts.

(** ** Handlers: more of what they do *)

Section MoreClaims.

Context `{PythonFloat}.

Import PyStr.

Lemma strip_is_whole_match (text g : string) :
  Re.match_amount (strip text) = Some g -> g = strip text.
Proof.
  intros Hm.
  destruct (TextFacts.match_amount_shape _ _ Hm) as [_ [Heq | Heq]];
    [now symmetry |].
  exfalso. unfold strip in Heq.
  apply ReFacts.rstrip_ends_with_no_space in Heq. discriminate Heq.
Qed.

(** X3.  A text that is a signed decimal once stripped, on a store
    that does not fail: the sender is registered and exactly one row is
    appended, with the next identifier, the float of the whole stripped
    text, the date of the day and the category "general".  The reply
    gives the amount and the total that get_total returns for the
    sender's amounts with the new one last; when that total fails with an
    integer overflow, the handler raises and replies nothing, and the
    row stays recorded. *)
Theorem valid_amount_is_recorded (env : Env) (text g : string) (chat : Z)
  (w : World) :
  Re.match_amount (strip text) = Some g ->
  reliable env ->
  let amount := float_of_str (strip text) in
  let w' := snd (handle_message env text chat w) in
  g = strip text
  /\ In chat (users (file w'))
  /\ transactions (file w')
     = transactions (file w)
       ++ [mkRow (next_id (file w)) amount (today env) "general" chat]
  /\ next_id (file w') = Z.succ (next_id (file w))
  /\ match total_outcome (amounts_of chat (file w) ++ [amount]) with
     | Ret total =>
         fst (handle_message env text chat w) = Ret tt
         /\ since w w'
            = [Reply [Lit "Amount added: "; Fmt (PyFloat amount);
                      Lit (newline ++ "Total: ")%string; Fmt total]]
     | Raise e =>
         fst (handle_message env text chat w) = Raise e /\ since w w' = []
     end.
Proof.
  intros Hm Hrel amount w'.
  pose proof (strip_is_whole_match _ _ Hm) as Hg. split; [exact Hg |].
  subst w' amount. rewrite <- Hg.
  unfold handle_message, bind.
  rewrite add_user_sound by apply Hrel. rewrite Hm.
  rewrite save_transaction_sound by apply Hrel.
  rewrite get_total_sound by apply Hrel.
  cbn [file]. rewrite amounts_of_insert, Z.eqb_refl.
  assert (Hsame : amounts_of chat (snd (insert_or_ignore_user chat (file w)))
                  = amounts_of chat (file w)).
  { unfold insert_or_ignore_user.
    now destruct (existsb (Z.eqb chat) (users (file w))). }
  rewrite Hsame.
  assert (Hin : In chat (users (snd (insert_or_ignore_user chat (file w))))).
  { unfold insert_or_ignore_user.
    destruct (existsb (Z.eqb chat) (users (file w))) eqn:Hreg; cbn [snd users].
    - now apply registered_iff.
    - apply in_app_iff. right. now left. }
  assert (Hrows : transactions (snd (insert_or_ignore_user chat (file w)))
                  = transactions (file w)
                  /\ next_id (snd (insert_or_ignore_user chat (file w)))
                     = next_id (file w)).
  { unfold insert_or_ignore_user.
    now destruct (existsb (Z.eqb chat) (users (file w))). }
  destruct Hrows as [Htx Hnext].
  destruct (total_outcome (amounts_of chat (file w) ++ [float_of_str g]))
    as [total | e];
    unfold reply_text, emit;
    cbn [fst snd file opened trace insert_transaction transactions next_id users];
    rewrite ?since_extended, ?since_same, Htx, Hnext;
    repeat split; exact Hin.
Qed.

Lemma with_Database_file {A} (env : Env) (q : Store -> A * Store) (w : World) :
  file (snd (with_Database env (execute q) w)) = file w
  \/ file (snd (with_Database env (execute q) w)) = snd (q (file w)).
Proof.
  unfold with_Database, execute.
  destruct (connect_fails (storage env (opened w))); [now left |].
  destruct (execute_fails (storage env (opened w))); cbn [file].
  - destruct (commit_fails (storage env (opened w))); now left.
  - destruct (q (file w)) as [a d'].
    destruct (commit_fails (storage env (opened w))); [now left | now right].
Qed.

(** X4.  Whatever fails, one message adds at most one transaction,
    deletes and changes none, and the row it may add is the sender's, of
    category "general" and dated today; a text of characters below 128
    that is no amount adds none. *)
Theorem message_adds_at_most_one_row (env : Env) (text : string) (chat : Z)
  (w : World) :
  exists extra,
    transactions (file (snd (handle_message env text chat w)))
    = transactions (file w) ++ extra
    /\ List.length extra <= 1
    /\ Forall (fun r => tx_chat_id r = chat /\ tx_category r = "general"
                        /\ tx_date r = today env) extra
    /\ (is_ascii text = true ->
        Re.match_amount (strip text) = None -> extra = []).
Proof.
  set (same := fun d d' : Store => transactions d' = transactions d).
  assert (Hrefl : forall d, same d d) by reflexivity.
  assert (Htrans : forall a b c, same a b -> same b c -> same a c)
    by (unfold same; intros; congruence).
  assert (Huser : same (file w) (file (snd (add_user env chat w)))).
  { apply (keeps_statement same Hrefl). intros d. unfold same, insert_or_ignore_user.
    now destruct (existsb (Z.eqb chat) (users d)). }
  unfold handle_message, bind.
  destruct (add_user env chat w) as [[[] | e] w1]; cbn [snd] in *.
  2:{ exists []. rewrite app_nil_r. repeat split; auto. }
  destruct (Re.match_amount (strip text)) as [group |].
  2:{ exists []. rewrite app_nil_r. unfold reply_text, emit. cbn [snd file].
      repeat split; auto. }
  pose proof (with_Database_file env
                (insert_transaction (float_of_str group) (today env) "general" chat)
                w1) as Hsave.
  fold (save_transaction env chat (float_of_str group) "general") in Hsave.
  assert (Hrest : forall w2,
             same (file w2)
                  (file (snd (bind (get_total env chat)
                                (fun total =>
                                   reply_text
                                     [Lit "Amount added: ";
                                      Fmt (PyFloat (float_of_str group));
                                      Lit (newline ++ "Total: ")%string;
                                      Fmt total]) w2)))).
  { apply (keeps_bind same Htrans).
    - apply (keeps_get_total same Hrefl).
    - intros total. apply (keeps_emit same Hrefl). }
  unfold bind in Hrest.
  destruct (save_transaction env chat (float_of_str group) "general" w1)
    as [[[] | e] w2]; cbn [snd] in *.
  - specialize (Hrest w2). unfold same in *.
    destruct Hsave as [Hsave | Hsave]; rewrite Hrest, Hsave.
    + exists []. rewrite app_nil_r. repeat split; auto; intros; discriminate.
    + cbn [snd insert_transaction transactions]. rewrite Huser.
      eexists. split; [reflexivity |].
      repeat split; auto; intros; try discriminate.
  - unfold same in *.
    destruct Hsave as [Hsave | Hsave]; rewrite Hsave.
    + exists []. rewrite app_nil_r. repeat split; auto; intros; discriminate.
    + cbn [snd insert_transaction transactions]. rewrite Huser.
      eexists. split; [reflexivity |].
      repeat split; auto; intros; try discriminate.
Qed.

(** X5.  Whatever fails, a total that get_total returns is a number,
    never None, and never a float that is zero: it is an integer or a
    float that is not zero. *)
Theorem get_total_is_a_number (env : Env) (chat : Z) (w : World) (v : pyval) :
  fst (get_total env chat w) = Ret v ->
  v <> PyNone /\ (forall x, v = PyFloat x -> float_bool x = true).
Proof.
  intros Hv.
  assert (Hsum : exists sum, v = py_or sum (PyInt 0)).
  { unfold get_total, with_Database, block_map, execute_checked, bind, raise,
      logger_error, emit in Hv.
    cbv beta zeta in Hv.
    destruct (connect_fails (storage env (opened w))); [discriminate Hv |].
    destruct (execute_fails (storage env (opened w)));
      [destruct (commit_fails (storage env (opened w))); discriminate Hv |].
    cbn [file] in Hv.
    destruct (select_sum chat (file w)) as [[sum d'] |];
      destruct (commit_fails (storage env (opened w)));
      cbn [fst] in Hv; try discriminate Hv;
      inversion Hv; now exists sum. }
  destruct Hsum as [sum ->]. unfold py_or.
  destruct sum as [| z | x]; cbn [truth].
  - split; [discriminate | intros x Hx; discriminate Hx].
  - destruct (negb (Z.eqb z 0));
      (split; [discriminate | intros x Hx; discriminate Hx]).
  - destruct (float_bool x) eqn:Hx.
    + split; [discriminate | intros y Hy; inversion Hy; now subst].
    + split; [discriminate | intros y Hy; discriminate Hy].
Qed.

(** X6.  When the connection cannot be opened, a ledger
    operation raises AttributeError to its caller after logging the
    failure to connect, and the file is as before. *)
Theorem connect_failure_is_raised (env : Env) (op : ledger_op) (w : World) :
  connect_fails (storage env (opened w)) = true ->
  fst (run_op env op w) = Raise AttributeError
  /\ file (snd (run_op env op w)) = file w
  /\ since w (snd (run_op env op w)) = [Log ConnectError].
Proof.
  intros Hconn.
  unfold run_op, add_user, save_transaction, get_total, fetch_transactions,
    clear_transactions, with_Database, bind, raise, logger_error, emit.
  destruct op; cbv beta zeta; rewrite Hconn; cbn [fst snd file opened trace];
    rewrite since_extended; repeat split.
Qed.

(** X10.  When the users cannot be read, because the connection
    does not open or the statement fails, a broadcast raises, sends
    nothing and gives the administrator no reply. *)
Theorem broadcast_stops_without_snapshot (env : Env) (args : list string)
  (w : World) :
  args <> [] ->
  connect_fails (storage env (opened w)) = true
  \/ execute_fails (storage env (opened w)) = true ->
  let w' := snd (broadcast_message env args w) in
  (exists e, fst (broadcast_message env args w) = Raise e)
  /\ sends_of (since w w') = []
  /\ replies_of (since w w') = [].
Proof.
  intros Hargs Hfail w'. subst w'.
  destruct args as [|a args]; [congruence |].
  unfold broadcast_message, fetch_users, with_Database, execute, bind, raise,
    logger_error, emit.
  cbv beta zeta.
  destruct (connect_fails (storage env (opened w))) eqn:Hc.
  - cbn [fst snd file opened trace]. rewrite since_extended.
    repeat split. now exists AttributeError.
  - destruct Hfail as [Hfail | Hfail]; [discriminate |]. rewrite Hfail.
    destruct (commit_fails (storage env (opened w)));
      cbn [fst snd file opened trace];
      rewrite ?since_extended, ?since_same;
      repeat split; now exists sqlite3_Error.
Qed.

End MoreClaims.

(** ** Pacing, lists, graphs and resets *)

Section Reports.

Context `{PythonFloat}.

Lemma sleeps_of_app (t1 t2 : list event) :
  sleeps_of (t1 ++ t2) = sleeps_of t1 ++ sleeps_of t2.
Proof. apply flat_map_app. Qed.

Lemma delivered_sends_of_app (t1 t2 : list event) :
  delivered_sends_of (t1 ++ t2) = delivered_sends_of t1 ++ delivered_sends_of t2.
Proof. apply flat_map_app. Qed.

Lemma deliver_events_sleeps (env : Env) (todo : list (Z * string)) :
  forall t,
    sleeps_of (deliver_events env t todo)
    = map (fun _ => RATE_LIMIT_DELAY)
          (delivered_sends_of (deliver_events env t todo)).
Proof.
  induction todo as [|[u c] todo IH]; intros t; simpl; [reflexivity |].
  rewrite sleeps_of_app, delivered_sends_of_app, map_app, IH.
  unfold attempt_events. now destruct (transport env t u c).
Qed.

Lemma deliver_events_all_delivered (env : Env) (todo : list (Z * string))
  (tail : list event) :
  (forall t c x, transport env t c x = true) ->
  forall t,
    paced_from true (deliver_events env t todo ++ tail) = paced_from true tail
    /\ failed_sends_of (deliver_events env t todo) = [].
Proof.
  intros Hall.
  induction todo as [|[u c] todo IH]; intros t; simpl; [now split |].
  unfold attempt_events. rewrite Hall. simpl.
  destruct (IH (t ++ [Send u c true; Sleep RATE_LIMIT_DELAY])) as [Hp Hf].
  now split.
Qed.

(** X11.  In a broadcast, whatever the transport does, there is one
    sleep of RATE_LIMIT_DELAY for each send that was delivered and none
    for a send that failed; and when every send is delivered, every send
    but the first comes after the sleep of the one before. *)
Theorem one_sleep_per_delivered_send (env : Env) (args : list string)
  (w : World) :
  args <> [] ->
  storage env (opened w) = no_faults ->
  let w' := snd (broadcast_message env args w) in
  sleeps_of (since w w')
  = map (fun _ => RATE_LIMIT_DELAY) (delivered_sends_of (since w w'))
  /\ ((forall t c x, transport env t c x = true) ->
      paced (since w w') = true /\ failed_sends_of (since w w') = []).
Proof.
  intros Hargs Hok w'. subst w'. rewrite broadcast_run by assumption.
  cbn [snd]. rewrite since_extended. split.
  - rewrite sleeps_of_app, delivered_sends_of_app, deliver_events_sleeps.
    simpl. now rewrite !app_nil_r.
  - intros Hall. unfold paced.
    destruct (deliver_events_all_delivered env
                (deliveries (users (file w)) (chunks (normalize args)))
                [Reply broadcast_sent] Hall (trace w)) as [Hp Hf].
    rewrite Hp, failed_sends_of_app, Hf. now split.
Qed.

(** X14.  On a store that does not fail, a transaction that was
    saved is the last row of its chat's list, with the next identifier
    and the amount, date and category given; the lists of the other
    chats are as before. *)
Theorem recorded_row_is_listed (env : Env) (chat : Z) (amount : float)
  (category : string) (w : World) :
  reliable env ->
  let w' := snd (save_transaction env chat amount category w) in
  fst (fetch_transactions env chat w')
  = Ret (fst (select_transactions chat (file w))
         ++ [mkRow (next_id (file w)) amount (today env) category chat])
  /\ forall other, other <> chat ->
       fst (fetch_transactions env other w')
       = fst (fetch_transactions env other w).
Proof.
  intros Hrel w'. subst w'.
  rewrite save_transaction_sound by apply Hrel. cbn [snd].
  unfold fetch_transactions. split.
  - rewrite with_Database_sound by apply Hrel.
    cbn [fst file select_transactions insert_transaction snd transactions].
    rewrite filter_app. cbn [filter]. unfold owned_by at 2. cbn [tx_chat_id].
    now rewrite Z.eqb_refl.
  - intros other Hneq. rewrite !with_Database_sound by apply Hrel.
    cbn [fst file select_transactions insert_transaction snd transactions].
    rewrite filter_app. cbn [filter]. unfold owned_by at 2. cbn [tx_chat_id].
    destruct (Z.eqb_spec chat other) as [-> | _]; [congruence |].
    now rewrite app_nil_r.
Qed.

Lemma filter_twice {A} (p : A -> bool) (l : list A) :
  filter p (filter p l) = filter p l.
Proof.
  induction l as [|x l IH]; simpl; [reflexivity |].
  destruct (p x) eqn:Hp; simpl; [rewrite Hp; now f_equal | exact IH].
Qed.

(** X15.  On a store that does not fail, a second reset changes
    nothing; and the first amount saved after a reset is the chat's only
    row and makes up its total alone. *)
Theorem reset_then_record (env : Env) (chat : Z) (amount : float)
  (category : string) (w : World) :
  reliable env ->
  let w1 := snd (reset_transactions env chat w) in
  let w2 := snd (save_transaction env chat amount category w1) in
  file (snd (reset_transactions env chat w1)) = file w1
  /\ fst (fetch_transactions env chat w2)
     = Ret [mkRow (next_id (file w)) amount (today env) category chat]
  /\ fst (get_total env chat w2) = total_outcome [amount].
Proof.
  intros Hrel w1 w2.
  assert (Hreset : forall v,
             reset_transactions env chat v
             = (Ret tt,
                mkWorld (snd (delete_transactions chat (file v))) (S (opened v))
                  (trace v ++ [Reply [Lit "All your transactions have been reset."]]))).
  { intros v. unfold reset_transactions, clear_transactions, bind.
    now rewrite with_Database_sound by apply Hrel. }
  subst w2 w1. rewrite !Hreset. cbn [snd file].
  rewrite save_transaction_sound by apply Hrel. cbn [snd].
  unfold fetch_transactions.
  rewrite get_total_sound, with_Database_sound by apply Hrel.
  unfold amounts_of.
  cbn [fst snd file select_transactions insert_transaction delete_transactions
       transactions users next_id].
  rewrite filter_twice, filter_app, filter_cleared_own.
  cbn [filter app]. unfold owned_by. cbn [tx_chat_id].
  rewrite Z.eqb_refl. repeat split.
Qed.

(** *** The groups of a graph *)

Lemma insert_sorted_In (d x : string) (l : list string) :
  In x (insert_sorted d l) <-> x = d \/ In x l.
Proof.
  induction l as [|y l IH]; cbn [insert_sorted].
  - simpl. intuition congruence.
  - destruct (String.leb d y); simpl in *; [intuition congruence |].
    rewrite IH. intuition congruence.
Qed.

Lemma insert_sorted_NoDup (d : string) (l : list string) :
  ~ In d l -> NoDup l -> NoDup (insert_sorted d l).
Proof.
  induction l as [|y l IH]; cbn [insert_sorted]; intros Hout Hnd.
  - constructor; [exact Hout | constructor].
  - destruct (String.leb d y); [now constructor |].
    inversion Hnd as [|? ? Hy Hl]; subst.
    constructor.
    + rewrite insert_sorted_In. simpl in Hout. intuition congruence.
    + apply IH; [simpl in Hout; tauto | assumption].
Qed.

Lemma sort_strings_In (x : string) (l : list string) :
  In x (sort_strings l) <-> In x l.
Proof.
  unfold sort_strings. induction l as [|y l IH]; cbn [fold_right]; [tauto |].
  rewrite insert_sorted_In, IH. simpl. intuition congruence.
Qed.

Lemma sort_strings_NoDup (l : list string) :
  NoDup l -> NoDup (sort_strings l).
Proof.
  unfold sort_strings. induction l as [|y l IH]; cbn [fold_right]; intros Hnd.
  - constructor.
  - inversion Hnd as [|? ? Hy Hl]; subst.
    apply insert_sorted_NoDup; [| now apply IH].
    fold (sort_strings l). now rewrite sort_strings_In.
Qed.

Lemma group_dates_spec (rows : list Row) :
  NoDup (group_dates rows)
  /\ forall day,
       In day (group_dates rows) <-> exists r, In r rows /\ tx_date r = day.
Proof.
  unfold group_dates. split.
  - apply sort_strings_NoDup, NoDup_nodup.
  - intros day. rewrite sort_strings_In, nodup_In, in_map_iff.
    split; intros [r [Ha Hb]]; exists r; tauto.
Qed.

Lemma group_rows_some (mine : list Row) (days : list string) :
  forall rows,
    group_rows mine days = Some rows ->
    map fst rows = days
    /\ map Some (map snd rows)
       = map (fun day => sql_SUM (map tx_amount (filter (dated day) mine))) days.
Proof.
  induction days as [|day days IH]; intros rows Hrows; cbn [group_rows] in Hrows.
  - inversion Hrows. now split.
  - destruct (sql_SUM (map tx_amount (filter (dated day) mine))) as [total |] eqn:Hsum;
      [| discriminate].
    destruct (group_rows mine days) as [rest |]; [| discriminate].
    inversion Hrows; subst. destruct (IH rest eq_refl) as [Hfst Hsnd].
    cbn [map fst snd]. now rewrite Hfst, Hsnd, Hsum.
Qed.

Lemma group_rows_none (mine : list Row) (days : list string) :
  group_rows mine days = None ->
  exists day,
    In day days /\ sql_SUM (map tx_amount (filter (dated day) mine)) = None.
Proof.
  induction days as [|day days IH]; cbn [group_rows]; intros Hrows;
    [discriminate |].
  destruct (sql_SUM (map tx_amount (filter (dated day) mine))) as [total |] eqn:Hsum.
  - destruct (group_rows mine days) as [rest |]; [discriminate |].
    destruct (IH eq_refl) as [d [Hd Hnone]]. exists d. split; [now right | exact Hnone].
  - exists day. split; [now left | exact Hsum].
Qed.

(** X16.  On a connection that does not fail, send_graph answers
    "No transactions found." exactly when the chat has no transaction.
    Otherwise it sends no text and plots one point for each date on which
    the chat has a transaction, each date once, with what SUM yields for
    the chat's amounts of that date, None where that is NULL; and when
    the sum of a date fails with an integer overflow it raises and plots
    nothing. *)
Theorem send_graph_groups_by_date (env : Env) (chat : Z) (w : World) :
  storage env (opened w) = no_faults ->
  let mine := filter (owned_by chat) (transactions (file w)) in
  let group_sum := fun day => sql_SUM (map tx_amount (filter (dated day) mine)) in
  let w' := snd (send_graph env chat w) in
  match fst (send_graph env chat w) with
  | Ret NoData =>
      mine = [] /\ since w w' = [Reply [Lit "No transactions found."]]
  | Ret (Plotted dates totals) =>
      mine <> []
      /\ NoDup dates
      /\ (forall day, In day dates <-> exists r, In r mine /\ tx_date r = day)
      /\ map Some totals = map group_sum dates
      /\ since w w' = []
  | Raise e =>
      e = sqlite3_Error
      /\ (exists r, In r mine /\ group_sum (tx_date r) = None)
      /\ since w w' = []
  end.
Proof.
  intros Hok mine group_sum w'. subst w'.
  unfold send_graph, bind, with_Database, execute_checked.
  rewrite Hok. cbn [connect_fails execute_fails commit_fails no_faults file].
  unfold select_daily_totals. fold mine.
  destruct (group_dates_spec mine) as [Hnd Hin].
  destruct (group_rows mine (group_dates mine)) as [rows |] eqn:Hrows.
  - destruct (group_rows_some _ _ _ Hrows) as [Hdates Htotals].
    destruct rows as [|row rows].
    + unfold reply_text, emit, ret. cbn [fst snd file opened trace].
      rewrite since_extended. split; [| reflexivity].
      cbn [map] in Hdates.
      destruct mine as [|r rest]; [reflexivity |].
      exfalso. rewrite <- Hdates in Hin.
      apply (proj2 (Hin (tx_date r))). exists r. split; [now left | reflexivity].
    + unfold ret. cbn [fst snd file opened trace]. rewrite since_same, Hdates.
      split; [| split; [exact Hnd | split; [exact Hin | split; [exact Htotals | reflexivity]]]].
      intros Hnone. rewrite Hnone in Hdates. discriminate Hdates.
  - cbn [fst snd file opened trace]. rewrite since_same.
    destruct (group_rows_none _ _ Hrows) as [day [Hday Hsum]].
    apply Hin in Hday as [r [Hr Hdate]].
    split; [reflexivity | split; [| reflexivity]].
    exists r. split; [exact Hr |]. subst group_sum. cbn beta. now rewrite Hdate.
Qed.

End Reports.

(** ** More sample inputs *)

Lemma match_amount_sound_witness :
  signed_decimal "-3.25"
  /\ ("-3.25" = "-3.25" \/ "-3.25" = ("-3.25" ++ PyStr.newline)%string).
Proof. apply (TextFacts.match_amount_sound "-3.25" "-3.25"); reflexivity. Defined.

Lemma match_amount_complete_witness :
  Re.match_amount ("-" ++ "3") = Some ("-" ++ "3")%string
  /\ forall frac,
       all_digits frac = true ->
       Re.match_amount ("-" ++ "3" ++ "." ++ frac)
       = Some ("-" ++ "3" ++ "." ++ frac)%string.
Proof. apply (TextFacts.match_amount_complete "-" "3"); reflexivity. Defined.

Lemma normalize_without_token_witness :
  normalize ["hello"; "world"] = PyStr.join " " ["hello"; "world"].
Proof. apply (TextFacts.normalize_without_token ["hello"; "world"]). reflexivity. Defined.

Lemma split_join_round_trip_witness :
  PyStr.split (PyStr.join " " ["a"; "bc"]) = ["a"; "bc"].
Proof.
  apply (TextFacts.split_join_round_trip ["a"; "bc"]).
  repeat constructor.
Defined.

Lemma valid_amount_is_recorded_witness :
  let w := start a_ledger in
  let amount := float_of_str (PyStr.strip " 12.50 ") in
  let w' := snd (handle_message calm " 12.50 " 1 w) in
  "12.50" = PyStr.strip " 12.50 "
  /\ In 1%Z (users (file w'))
  /\ transactions (file w')
     = transactions (file w)
       ++ [mkRow (next_id (file w)) amount (today calm) "general" 1]
  /\ next_id (file w') = Z.succ (next_id (file w))
  /\ fst (handle_message calm " 12.50 " 1 w) = Ret tt
  /\ since w w'
     = [Reply [Lit "Amount added: "; Fmt (PyFloat 12.5%float);
               Lit (PyStr.newline ++ "Total: ")%string;
               Fmt (PyFloat 22%float)]].
Proof.
  apply (valid_amount_is_recorded calm " 12.50 " "12.50" 1 (start a_ledger)).
  - reflexivity.
  - intros n. reflexivity.
Defined.

Lemma get_total_is_a_number_witness :
  PyFloat 9.5%float <> PyNone
  /\ (forall x, PyFloat 9.5%float = PyFloat x -> float_bool x = true).
Proof.
  apply (get_total_is_a_number calm 1 (start a_ledger) (@PyFloat IEEE 9.5%float)).
  reflexivity.
Defined.

Lemma connect_failure_is_raised_witness :
  let w := start a_ledger in
  fst (run_op unreachable (ResetUser 1) w) = Raise AttributeError
  /\ file (snd (run_op unreachable (ResetUser 1) w)) = file w
  /\ since w (snd (run_op unreachable (ResetUser 1) w)) = [Log ConnectError].
Proof.
  apply (connect_failure_is_raised unreachable (ResetUser 1) (start a_ledger)).
  reflexivity.
Defined.

Lemma broadcast_stops_without_snapshot_witness :
  let w := start two_users in
  let w' := snd (broadcast_message unreachable ["hi"] w) in
  (exists e, fst (broadcast_message unreachable ["hi"] w) = Raise e)
  /\ sends_of (since w w') = []
  /\ replies_of (since w w') = [].
Proof.
  apply (broadcast_stops_without_snapshot unreachable ["hi"] (start two_users)).
  - discriminate.
  - left. reflexivity.
Defined.

Lemma one_sleep_per_delivered_send_witness :
  let w := start two_users in
  let w' := snd (broadcast_message (blocked_by 1) ["hi"] w) in
  sleeps_of (since w w')
  = map (fun _ => RATE_LIMIT_DELAY) (delivered_sends_of (since w w'))
  /\ ((forall t c x, transport (blocked_by 1) t c x = true) ->
      paced (since w w') = true /\ failed_sends_of (since w w') = []).
Proof.
  apply (one_sleep_per_delivered_send (blocked_by 1) ["hi"] (start two_users));
    [discriminate | reflexivity].
Defined.

Lemma recorded_row_is_listed_witness :
  let w := start a_ledger in
  let w' := snd (save_transaction calm 2 1.5%float "food" w) in
  fst (fetch_transactions calm 2 w')
  = Ret [mkRow 2 4%float "2024-04-30" "general" 2;
         mkRow 4 1.5%float "2024-05-01" "food" 2]
  /\ forall other, other <> 2%Z ->
       fst (fetch_transactions calm other w')
       = fst (fetch_transactions calm other w).
Proof.
  apply (@recorded_row_is_listed IEEE calm 2 1.5%float "food" (start a_ledger)).
  intros n. reflexivity.
Defined.

Lemma reset_then_record_witness :
  let w := start a_ledger in
  let w1 := snd (reset_transactions calm 1 w) in
  let w2 := snd (save_transaction calm 1 2.5%float "general" w1) in
  file (snd (reset_transactions calm 1 w1)) = file w1
  /\ fst (fetch_transactions calm 1 w2)
     = Ret [mkRow 4 2.5%float "2024-05-01" "general" 1]
  /\ fst (get_total calm 1 w2) = Ret (PyFloat 2.5%float).
Proof.
  apply (@reset_then_record IEEE calm 1 2.5%float "general" (start a_ledger)).
  intros n. reflexivity.
Defined.

Lemma send_graph_groups_by_date_witness :
  let w := start a_ledger in
  let mine := filter (owned_by 1) (transactions (file w)) in
  let group_sum := fun day => sql_SUM (map tx_amount (filter (dated day) mine)) in
  let w' := snd (send_graph calm 1 w) in
  match fst (send_graph calm 1 w) with
  | Ret NoData =>
      mine = [] /\ since w w' = [Reply [Lit "No transactions found."]]
  | Ret (Plotted dates totals) =>
      mine <> []
      /\ NoDup dates
      /\ (forall day, In day dates <-> exists r, In r mine /\ tx_date r = day)
      /\ map Some totals = map group_sum dates
      /\ since w w' = []
  | Raise e =>
      e = sqlite3_Error
      /\ (exists r, In r mine /\ group_sum (tx_date r) = None)
      /\ since w w' = []
  end.
Proof.
  apply (send_graph_groups_by_date calm 1 (start a_ledger)). reflexivity.
Defined.

Example scenario_graph :
  fst (send_graph calm 1 (start a_ledger))
  = Ret (Plotted ["2024-04-30"; "2024-05-01"]
                 [PyFloat 12.5%float; PyInt (-3)])
  /\ fst (send_graph calm 3 (start a_ledger)) = Ret NoData.
Proof. split; reflexivity. Qed.
